(** * ask_for.h: prompting for typed console input

    A shallow embedding of [src/ask_for.h].  The header reads one line from
    [std::cin], fills the requested objects from it through an
    [std::istringstream], checks a caller-supplied condition and asks again
    until the line is accepted.

    What the header takes from the C++ standard library (stream state bits,
    the sentry of formatted extraction, [num_get] for [int], [std::getline])
    is written out below as far as the header depends on it. *)

From Stdlib Require Import List Ascii String ZArith Bool Arith Lia.
Import ListNotations.

Local Open Scope Z_scope.

(** ** Stream state ([std::ios_base::iostate]) *)

Module Ios.

Record iostate : Type := mk_iostate
  { eofbit : bool; failbit : bool; badbit : bool }.

Definition goodbit : iostate := mk_iostate false false false.

(** [good()]: no bit is set. *)
Definition good (st : iostate) : bool :=
  negb (eofbit st) && negb (failbit st) && negb (badbit st).

(** [eof()]: [eofbit] is set. *)
Definition eof (st : iostate) : bool := eofbit st.

(** [fail()]: [failbit] or [badbit] is set. *)
Definition fail (st : iostate) : bool := failbit st || badbit st.

(** [bad()]: [badbit] is set. *)
Definition bad (st : iostate) : bool := badbit st.

(** [a | b] on states. *)
Definition or (a b : iostate) : iostate :=
  mk_iostate (eofbit a || eofbit b) (failbit a || failbit b)
             (badbit a || badbit b).

(** [a ^ b] on states. *)
Definition xor (a b : iostate) : iostate :=
  mk_iostate (xorb (eofbit a) (eofbit b)) (xorb (failbit a) (failbit b))
             (xorb (badbit a) (badbit b)).

Definition only_eof : iostate := mk_iostate true false false.
Definition only_fail : iostate := mk_iostate false true false.
Definition only_bad : iostate := mk_iostate false false true.

End Ios.

Import Ios.

(** ** The string stream a line is parsed from ([std::istringstream]) *)

Record sstream : Type := mk_sstream
  { sbuf : list ascii;      (* characters not yet extracted *)
    sstate : iostate }.

(** [ss.setstate(f)] is [ss.clear(ss.rdstate() | f)]. *)
Definition ss_setstate (f : iostate) (ss : sstream) : sstream :=
  mk_sstream (sbuf ss) (Ios.or (sstate ss) f).

(** [ss.clear(f)] replaces the state. *)
Definition ss_clear (f : iostate) (ss : sstream) : sstream :=
  mk_sstream (sbuf ss) f.

(** [std::isspace] in the classic locale: space, \t, \n, \v, \f, \r. *)
Definition is_space (c : ascii) : bool :=
  let n := nat_of_ascii c in
  (Nat.eqb n 32 || (Nat.leb 9 n && Nat.leb n 13))%bool.

Definition is_digit (c : ascii) : bool :=
  let n := nat_of_ascii c in (Nat.leb 48 n && Nat.leb n 57)%bool.

Definition digit_val (c : ascii) : Z := Z.of_nat (nat_of_ascii c) - 48.

Fixpoint skip_ws (l : list ascii) : list ascii :=
  match l with
  | [] => []
  | c :: r => if is_space c then skip_ws r else l
  end.

(** The sentry of a formatted input function ([skipws] set, as it is by
    default): on a stream that is not good it sets [failbit]; otherwise it
    skips white space, and running into the end of the buffer while skipping
    sets [eofbit] and [failbit]. *)
Definition sentry (ss : sstream) : bool * sstream :=
  if good (sstate ss) then
    match skip_ws (sbuf ss) with
    | [] =>
        (false,
         mk_sstream [] (Ios.or (sstate ss) (mk_iostate true true false)))
    | c :: r => (true, mk_sstream (c :: r) (sstate ss))
    end
  else (false, ss_setstate only_fail ss).

(** *** Scalar values and their extraction *)

(** The signed integer types besides [int]. *)
Inductive integer_type : Type := Short | Long | LongLong.

Inductive sval : Type :=
| VInt (z : Z)                          (* int *)
| VStr (s : string)                     (* std::string *)
| VChar (c : ascii)                     (* char *)
| VInteger (k : integer_type) (z : Z).  (* short, long, long long *)

Definition INT_MIN : Z := - 2 ^ 31.
Definition INT_MAX : Z := 2 ^ 31 - 1.

Definition integer_min (k : integer_type) : Z :=
  match k with
  | Short => - 2 ^ 15
  | Long => - 2 ^ 63
  | LongLong => - 2 ^ 63
  end.

Definition integer_max (k : integer_type) : Z :=
  match k with
  | Short => 2 ^ 15 - 1
  | Long => 2 ^ 63 - 1
  | LongLong => 2 ^ 63 - 1
  end.

(** Longest prefix of [l] whose characters satisfy [p], and the rest. *)
Fixpoint span (p : ascii -> bool) (l : list ascii) : list ascii * list ascii :=
  match l with
  | [] => ([], [])
  | c :: r => if p c then let '(a, b) := span p r in (c :: a, b) else ([], l)
  end.

(** An optional sign: [(negative, rest)]. *)
Definition read_sign (l : list ascii) : bool * list ascii :=
  match l with
  | c :: r =>
      if Ascii.eqb c "-" then (true, r)
      else if Ascii.eqb c "+" then (false, r)
      else (false, l)
  | [] => (false, [])
  end.

Definition digits_val (ds : list ascii) : Z :=
  fold_left (fun acc c => 10 * acc + digit_val c) ds 0.

(** [is >> int]: after the sentry, [num_get] takes an optional sign and the
    longest run of decimal digits.  No digit: the value is 0 and [failbit] is
    set.  A value outside [int]: the nearest bound is stored and [failbit] is
    set.  Reaching the end of the buffer sets [eofbit]. *)
Definition extract_int (old : Z) (ss : sstream) : Z * sstream :=
  let '(ok, ss1) := sentry ss in
  if ok then
    let '(neg, l1) := read_sign (sbuf ss1) in
    let '(ds, l2) := span is_digit l1 in
    let v := if neg then - digits_val ds else digits_val ds in
    let at_end := match l2 with [] => true | _ => false end in
    let e := mk_iostate at_end false false in
    match ds with
    | [] => (0, mk_sstream l2 (Ios.or (sstate ss1) (Ios.or only_fail e)))
    | _ =>
        if v <? INT_MIN then
          (INT_MIN, mk_sstream l2 (Ios.or (sstate ss1) (Ios.or only_fail e)))
        else if INT_MAX <? v then
          (INT_MAX, mk_sstream l2 (Ios.or (sstate ss1) (Ios.or only_fail e)))
        else (v, mk_sstream l2 (Ios.or (sstate ss1) e))
    end
  else (old, ss1).

(** [is >> t] for another signed integer type with the bounds [lo] and
    [hi]: the same reading, a value outside the type is replaced by the
    nearest bound and sets [failbit]. *)
Definition extract_integer (lo hi : Z) (old : Z) (ss : sstream)
  : Z * sstream :=
  let '(ok, ss1) := sentry ss in
  if ok then
    let '(neg, l1) := read_sign (sbuf ss1) in
    let '(ds, l2) := span is_digit l1 in
    let v := if neg then - digits_val ds else digits_val ds in
    let at_end := match l2 with [] => true | _ => false end in
    let e := mk_iostate at_end false false in
    match ds with
    | [] => (0, mk_sstream l2 (Ios.or (sstate ss1) (Ios.or only_fail e)))
    | _ =>
        if v <? lo then
          (lo, mk_sstream l2 (Ios.or (sstate ss1) (Ios.or only_fail e)))
        else if hi <? v then
          (hi, mk_sstream l2 (Ios.or (sstate ss1) (Ios.or only_fail e)))
        else (v, mk_sstream l2 (Ios.or (sstate ss1) e))
    end
  else (old, ss1).

(** [is >> std::string]: after the sentry the string is erased and filled
    with the characters up to the next white space; reaching the end of the
    buffer sets [eofbit], extracting nothing sets [failbit]. *)
Definition extract_string (old : string) (ss : sstream)
  : string * sstream :=
  let '(ok, ss1) := sentry ss in
  if ok then
    let '(w, l2) := span (fun c => negb (is_space c)) (sbuf ss1) in
    let at_end := match l2 with [] => true | _ => false end in
    let nothing := match w with [] => true | _ => false end in
    (string_of_list_ascii w,
     mk_sstream l2 (Ios.or (sstate ss1) (mk_iostate at_end nothing false)))
  else (old, ss1).

(** [is >> char]: after the sentry one character is taken; at the end of the
    buffer [eofbit] and [failbit] are set instead. *)
Definition extract_char (old : ascii) (ss : sstream) : ascii * sstream :=
  let '(ok, ss1) := sentry ss in
  if ok then
    match sbuf ss1 with
    | c :: r => (c, mk_sstream r (sstate ss1))
    | [] => (old, ss_setstate (mk_iostate true true false) ss1)
    end
  else (old, ss1).

(** Overload resolution of [is >> t] on the static type of [t]. *)
Definition extract_scalar (old : sval) (ss : sstream) : sval * sstream :=
  match old with
  | VInt z => let '(v, s) := extract_int z ss in (VInt v, s)
  | VStr x => let '(v, s) := extract_string x ss in (VStr v, s)
  | VChar c => let '(v, s) := extract_char c ss in (VChar v, s)
  | VInteger k z =>
      let '(v, s) :=
        extract_integer (integer_min k) (integer_max k) z ss in
      (VInteger k v, s)
  end.

(** *** Slots: scalars, [std::array<T, N>] and [std::vector<T>]

    The templates are instantiated at [int], [std::string], [char] and the
    signed integer types [short], [long] and [long long], and at arrays and
    vectors of these.  Unsigned and floating-point types are left out (what
    their extraction does with a sign or an exponent is not the same in
    every library), and so are containers of containers, on which the loop
    of the vector does not end. *)

Inductive scalar : Type :=
| SInt | SStr | SChar
| SInteger (k : integer_type).

Inductive slot_ty : Type :=
| TScalar (s : scalar)
| TArray (s : scalar) (n : nat)
| TVector (s : scalar).

Inductive value : Type :=
| Scalar (v : sval)
| Array (vs : list sval)
| Vector (s : scalar) (vs : list sval).

(** A freshly declared object ([T t;], [std::tuple<...> tuple;]).  The
    header never reads an object that no extraction has written, so the
    value chosen for [int] and [char] is not observable. *)
Definition default_scalar (s : scalar) : sval :=
  match s with
  | SInt => VInt 0
  | SStr => VStr EmptyString
  | SChar => VChar zero
  | SInteger k => VInteger k 0
  end.

Definition default_value (t : slot_ty) : value :=
  match t with
  | TScalar s => Scalar (default_scalar s)
  | TArray s n => Array (repeat (default_scalar s) n)
  | TVector s => Vector s []
  end.

(** [operator>>(std::istream&, std::array<T, N>&)] through [input_stream]:
    [is >> std::get<Is>(array)] for every index, in order. *)
Fixpoint input_stream (ss : sstream) (array : list sval)
  : list sval * sstream :=
  match array with
  | [] => ([], ss)
  | a :: r =>
      let '(v, ss1) := extract_scalar a ss in
      let '(vs, ss2) := input_stream ss1 r in
      (v :: vs, ss2)
  end.

(** The [while (true)] of [operator>>(std::istream&, std::vector<T>&)];
    [None] when [fuel] iterations were not enough. *)
Fixpoint vector_loop (fuel : nat) (s : scalar) (ss : sstream)
  (vector : list sval) : option (list sval * sstream) :=
  match fuel with
  | O => None
  | S fuel' =>
      let '(t, ss1) := extract_scalar (default_scalar s) ss in
      if Ios.fail (sstate ss1) then Some (vector, ss1)
      else vector_loop fuel' s ss1 (vector ++ [t])
  end.

(** [operator>>(std::istream&, std::vector<T>&)]: the loop, then
    [if (is.fail()) is.clear(is.rdstate() ^ failbit)].  Every iteration that
    does not leave the loop takes a character, so one iteration more than
    there are characters is enough ([extract_vector_total]). *)
Definition extract_vector (s : scalar) (ss : sstream) (vector : list sval)
  : option (list sval * sstream) :=
  match vector_loop (S (List.length (sbuf ss))) s ss vector with
  | None => None
  | Some (vector', ss1) =>
      Some (vector',
            if Ios.fail (sstate ss1)
            then ss_clear (Ios.xor (sstate ss1) only_fail) ss1
            else ss1)
  end.

(** [ss >> t] for one slot. *)
Definition extract (t : value) (ss : sstream) : option (value * sstream) :=
  match t with
  | Scalar v => let '(v', ss1) := extract_scalar v ss in Some (Scalar v', ss1)
  | Array vs => let '(vs', ss1) := input_stream ss vs in Some (Array vs', ss1)
  | Vector s vs =>
      match extract_vector s ss vs with
      | None => None
      | Some (vs', ss1) => Some (Vector s vs', ss1)
      end
  end.

(** [(ss >> t, 0)...]: the slots are filled in declaration order. *)
Fixpoint fill_slots (t : list value) (ss : sstream)
  : option (list value * sstream) :=
  match t with
  | [] => Some ([], ss)
  | a :: b =>
      match extract a ss with
      | None => None
      | Some (a', ss1) =>
          match fill_slots b ss1 with
          | None => None
          | Some (b', ss2) => Some (a' :: b', ss2)
          end
      end
  end.

(** ** Standard input, standard output, standard error *)

(** What the input device delivers: characters, and possibly a read fault
    (the stream buffer throws; [std::getline] answers with [badbit]).  A
    [Fault] is met once and reading goes on behind it; from [Dead] on every
    read fails.  The end of the list is the end of the input. *)
Inductive event : Type := Ch (c : ascii) | Fault | Dead.

Record istream : Type := mk_istream
  { ibuf : list event;
    istate : iostate }.

Definition is_setstate (f : iostate) (ist : istream) : istream :=
  mk_istream (ibuf ist) (Ios.or (istate ist) f).

Definition is_clear (ist : istream) : istream :=
  mk_istream (ibuf ist) goodbit.

Record world : Type := mk_world
  { cin : istream;
    cout : string;
    cerr : string }.

Definition set_cin (ist : istream) (w : world) : world :=
  mk_world ist (cout w) (cerr w).

Definition put_cout (s : string) (w : world) : world :=
  mk_world (cin w) (cout w ++ s) (cerr w).

Definition put_cerr (s : string) (w : world) : world :=
  mk_world (cin w) (cout w) (cerr w ++ s).

Definition newline : ascii := "010"%char.
Definition nl : string := String newline EmptyString.

Inductive stop : Type := AtDelim | AtEof | AtFault.

(** Characters up to the line terminator, what is left of the input, and why
    reading stopped.  The terminator is taken from the input and not stored. *)
Fixpoint read_line (evs : list event) : list ascii * list event * stop :=
  match evs with
  | [] => ([], [], AtEof)
  | Fault :: r => ([], r, AtFault)
  | Dead :: r => ([], Dead :: r, AtFault)
  | Ch c :: r =>
      if Ascii.eqb c newline then ([], r, AtDelim)
      else let '(s, r', why) := read_line r in (c :: s, r', why)
  end.

(** [std::getline(is, s)] into an empty [s].  Its sentry does not skip white
    space; on a stream that is not good nothing is read and [failbit] is set.
    Otherwise: end of input sets [eofbit], a fault sets [badbit], and when
    nothing at all was extracted (not even a terminator) [failbit] is set. *)
Definition getline (ist : istream) : list ascii * istream :=
  if good (istate ist) then
    let '(s, rest, why) := read_line (ibuf ist) in
    let extracted :=
      (List.length s + match why with AtDelim => 1 | _ => 0 end)%nat in
    let err :=
      match why with
      | AtDelim => goodbit
      | AtEof => only_eof
      | AtFault => only_bad
      end in
    let err := if Nat.eqb extracted 0 then Ios.or err only_fail else err in
    (s, mk_istream rest (Ios.or (istate ist) err))
  else ([], is_setstate only_fail ist).

(** What a call does: it returns, it leaves by [Eof_exception], or (in the
    model only) the iteration bound was too small. *)
Inductive outcome (A : Type) : Type :=
| Ret (a : A) (w : world)
| Eof_exception (w : world)
| Fuel.

Arguments Ret {A} a w.
Arguments Eof_exception {A} w.
Arguments Fuel {A}.

(** The lambda of [get_line_fill]: one object, of type [std::string], and an
    empty line. *)
Definition single_string_empty (s : list ascii) (t : list value) : bool :=
  match t with
  | [Scalar (VStr _)] => match s with [] => true | _ => false end
  | _ => false
  end.

(** [ss.rdbuf()->in_avail()]: the characters left in the buffer. *)
Definition in_avail (ss : sstream) : nat := List.length (sbuf ss).

(** Lines 105 to 114 of the header: the string stream over the line, the
    fill, and [eofbit] forced when the buffer is used up. *)
Definition fill_line (s : list ascii) (t : list value)
  : option (list value * sstream) :=
  match fill_slots t (mk_sstream s goodbit) with
  | None => None
  | Some (t', ss) =>
      Some (t',
            if Nat.eqb (in_avail ss) 0
            then ss_clear (Ios.or (sstate ss) only_eof) ss
            else ss)
  end.

Definition get_line_fill (t : list value) (w : world) : outcome (list value) :=
  let '(s, ist) := getline (cin w) in
  if eof (istate ist) then Eof_exception (set_cin ist w)
  else if negb (good (istate ist)) then Ret t (set_cin ist w)
  else if single_string_empty s t then
    Ret t (set_cin (is_setstate only_eof ist) w)
  else
    match fill_line s t with
    | None => Fuel
    | Some (t', ss) => Ret t' (set_cin (is_setstate (sstate ss) ist) w)
    end.

(** ** Condition errors *)

Definition condition_errors (t : value) (f : value -> bool) : bool :=
  negb (f t).

(** [bool errors = true;] then [errors = condition_errors(t, condition)] for
    every object in turn. *)
Definition errors_after (t : list value) (condition : value -> bool) : bool :=
  fold_left (fun _ a => condition_errors a condition) t true.

(** ** Main implementation functions *)

Definition ask_for_impl (message : string) (condition : value -> bool)
  (condition_error parse_error : string) (t : list value) (w : world)
  : outcome (bool * list value) :=
  match get_line_fill t (put_cout message w) with
  | Fuel => Fuel
  | Eof_exception w1 => Eof_exception w1
  | Ret t1 w1 =>
      let st := istate (cin w1) in
      if bad st then
        let w2 := put_cerr ("Cannot read from stream" ++ nl) w1 in
        Ret (false, t1) (set_cin (is_clear (cin w2)) w2)
      else if Ios.fail st then
        let w2 := put_cout (parse_error ++ nl) w1 in
        Ret (false, t1) (set_cin (is_clear (cin w2)) w2)
      else if negb (eof st) then
        let w2 := put_cout ("Error: excess input" ++ nl) w1 in
        Ret (false, t1) (set_cin (is_clear (cin w2)) w2)
      else
        if errors_after t1 condition then
          let w2 := put_cout (condition_error ++ nl) w1 in
          Ret (false, t1) (set_cin (is_clear (cin w2)) w2)
        else Ret (true, t1) (set_cin (is_clear (cin w1)) w1)
  end.

(** The [while (true)] shared by both [ask_for] templates: fresh objects for
    every attempt, returned when [ask_for_impl] answers [true]. *)
Fixpoint ask_for_loop (fuel : nat) (message : string)
  (condition : value -> bool) (condition_error parse_error : string)
  (tys : list slot_ty) (w : world) : outcome (list value) :=
  match fuel with
  | O => Fuel
  | S fuel' =>
      match ask_for_impl message condition condition_error parse_error
              (map default_value tys) w with
      | Fuel => Fuel
      | Eof_exception w1 => Eof_exception w1
      | Ret (true, t) w1 => Ret t w1
      | Ret (false, _) w1 =>
          ask_for_loop fuel' message condition condition_error parse_error
            tys w1
      end
  end.

(** ** Ask for multiple: [ask_for<T1, T2, T...>] *)

Definition ask_for_multiple (fuel : nat) (T1 T2 : slot_ty) (T : list slot_ty)
  (message : string) (condition : value -> bool)
  (condition_error parse_error : string) (w : world) : outcome (list value) :=
  ask_for_loop fuel message condition condition_error parse_error
    (T1 :: T2 :: T) w.

(** ** Ask for single: [ask_for<T>] *)

Definition ask_for_single (fuel : nat) (T : slot_ty)
  (message : string) (condition : value -> bool)
  (condition_error parse_error : string) (w : world) : outcome value :=
  match ask_for_loop fuel message condition condition_error parse_error
          [T] w with
  | Ret t w1 => Ret (hd (default_value T) t) w1
  | Eof_exception w1 => Eof_exception w1
  | Fuel => Fuel
  end.

(** The default arguments of the header. *)
Definition default_condition_error : string := "Error: unmet condition".
Definition default_parse_error : string := "Error: parse error".
Definition default_message : string := "Enter input: ".

(** [ask_for<T1, T2, T...>(message, parse_error)]: every value is
    acceptable, and the condition error is the empty string. *)
Definition ask_for_multiple_any (fuel : nat) (T1 T2 : slot_ty)
  (T : list slot_ty) (message parse_error : string) (w : world)
  : outcome (list value) :=
  ask_for_multiple fuel T1 T2 T message (fun _ => true) EmptyString
    parse_error w.

(** [ask_for<T>(message, parse_error)] is
    [ask_for<T>(message, [](auto) { return true; })]: its [parse_error] is
    not passed on. *)
Definition ask_for_single_any (fuel : nat) (T : slot_ty)
  (message parse_error : string) (w : world) : outcome value :=
  ask_for_single fuel T message (fun _ => true) default_condition_error
    default_parse_error w.

(** Standard input holding the text [s], in a good state. *)
Definition stdin_of (s : string) : istream :=
  mk_istream (map Ch (list_ascii_of_string s)) goodbit.

Definition console (s : string) : world :=
  mk_world (stdin_of s) EmptyString EmptyString.

(** Enough iterations for any input: every attempt that asks again has taken
    an event from the input or found the stream not good, which happens at
    most once ([ask_for_loop_total]). *)
Definition enough (w : world) : nat := S (S (List.length (ibuf (cin w)))).

(** ** Vocabulary of the properties *)

Definition non_space (c : ascii) : bool := negb (is_space c).

(** The tokens of a line: its maximal runs of characters that are not white
    space, in order. *)
Fixpoint words (l : list ascii) : list (list ascii) :=
  match l with
  | [] => []
  | c :: r =>
      if is_space c then words r
      else
        match r with
        | [] => [[c]]
        | d :: _ =>
            if is_space d then [c] :: words r
            else
              match words r with
              | w :: ws => (c :: w) :: ws
              | [] => [[c]]
              end
        end
  end.

Definition is_nil {A : Type} (l : list A) : bool :=
  match l with [] => true | _ => false end.

(** A token that is a whole [int]: an optional sign, at least one digit,
    nothing else, and a value that fits. *)
Definition int_value (tok : list ascii) : Z :=
  let '(neg, ds) := read_sign tok in
  if neg then - digits_val ds else digits_val ds.

Definition is_int_literal (tok : list ascii) : bool :=
  let '(_, ds) := read_sign tok in
  (negb (is_nil ds) && forallb is_digit ds
   && (INT_MIN <=? int_value tok) && (int_value tok <=? INT_MAX))%bool.

(** The same for a signed integer type with the bounds [lo] and [hi]. *)
Definition is_integer_literal (lo hi : Z) (tok : list ascii) : bool :=
  let '(_, ds) := read_sign tok in
  (negb (is_nil ds) && forallb is_digit ds
   && (lo <=? int_value tok) && (int_value tok <=? hi))%bool.

(** A token of the element type: a literal that fits for the integer types,
    any token for [std::string], a single character for [char]. *)
Definition is_token (s : scalar) (tok : list ascii) : bool :=
  match s with
  | SInt => is_int_literal tok
  | SStr => true
  | SChar => Nat.eqb (List.length tok) 1
  | SInteger k => is_integer_literal (integer_min k) (integer_max k) tok
  end.

Definition is_sign (c : ascii) : bool :=
  (Ascii.eqb c "-" || Ascii.eqb c "+")%bool.

(** A line as [std::getline] delivers it holds no line terminator. *)
Definition no_newline (line : list ascii) : bool :=
  forallb (fun c => negb (Ascii.eqb c newline)) line.

(** Standard input in a good state with [line], its terminator and then
    [rest] still to be read; [out] and [err] were written so far. *)
Definition with_line (line : list ascii) (rest : list event)
  (out err : string) : world :=
  mk_world (mk_istream (map Ch line ++ Ch newline :: rest) goodbit) out err.

(** The state of the console after an attempt on that line was turned down
    with the message [said]. *)
Definition asked_again (message said : string) (rest : list event)
  (out err : string) : world :=
  mk_world (mk_istream rest goodbit) ((out ++ message) ++ said ++ nl) err.

(** The state of the console after an attempt on that line was accepted. *)
Definition accepted (message : string) (rest : list event)
  (out err : string) : world :=
  mk_world (mk_istream rest goodbit) (out ++ message) err.

(** A condition for the examples: an [int] has to be positive, anything else
    is acceptable. *)
Definition positive_int (v : value) : bool :=
  match v with
  | Scalar (VInt z) => 0 <? z
  | _ => true
  end.

Definition any_value (_ : value) : bool := true.

(** The values of a run of [int] tokens. *)
Definition int_values (toks : list (list ascii)) : list sval :=
  map (fun tok => VInt (int_value tok)) toks.

(** A read fault after the first character of a line. *)
Definition faulty_console : world :=
  mk_world
    (mk_istream (Ch "1" :: Fault :: map Ch (list_ascii_of_string ("7" ++ nl)))
       goodbit)
    EmptyString EmptyString.

(** The invariant of a string stream: it is never bad, and [eofbit] is set
    only when the buffer is used up. *)
Definition ss_inv (ss : sstream) : Prop :=
  badbit (sstate ss) = false /\
  (eofbit (sstate ss) = true -> sbuf ss = []).

(** How one attempt on a line ends (section 4.4 of the specification). *)
Inductive verdict : Type :=
| ParseFailure | ExcessInput | ConditionViolation | Accepted.

Definition is_accepted (v : verdict) : bool :=
  match v with Accepted => true | _ => false end.

(** The verdict [ask_for_impl] reaches on a line read into the objects [t],
    from the tests it makes in their order. *)
Definition verdict_of (condition : value -> bool) (t : list value)
  (line : list ascii) : verdict :=
  if single_string_empty line t then
    if errors_after t condition then ConditionViolation else Accepted
  else
    match fill_line line t with
    | Some (t', ss) =>
        if failbit (sstate ss) then ParseFailure
        else if negb (is_nil (sbuf ss)) then ExcessInput
        else if errors_after t' condition then ConditionViolation
        else Accepted
    | None => ParseFailure
    end.

(** The objects after the attempt. *)
Definition filled (t : list value) (line : list ascii) : list value :=
  if single_string_empty line t then t
  else match fill_line line t with
       | Some (t', _) => t'
       | None => t
       end.

(** What is printed for a verdict that makes the loop ask again. *)
Definition message_of (v : verdict) (condition_error parse_error : string)
  : string :=
  match v with
  | ParseFailure => parse_error
  | ExcessInput => "Error: excess input"
  | ConditionViolation => condition_error
  | Accepted => EmptyString
  end.

(** Terminated lines, one after the other, in front of [rest]. *)
Fixpoint lines_then (ls : list (list ascii)) (rest : list event)
  : list event :=
  match ls with
  | [] => rest
  | l :: ls' => map Ch l ++ Ch newline :: lines_then ls' rest
  end.

(** Standard output after an attempt on each of the lines [ls] was turned
    down: for each, the prompt, the message of its verdict, a new line. *)
Fixpoint transcript (message : string) (condition : value -> bool)
  (condition_error parse_error : string) (t : list value)
  (ls : list (list ascii)) (out : string) : string :=
  match ls with
  | [] => out
  | l :: ls' =>
      transcript message condition condition_error parse_error t ls'
        ((out ++ message)
         ++ message_of (verdict_of condition t l) condition_error parse_error
         ++ nl)
  end.

(** Every read fault of the input is met once: the device is never dead. *)
Definition live (evs : list event) : bool :=
  forallb (fun e => match e with Dead => false | _ => true end) evs.

(** Measure of the prompt loop: the events left on the input, and one more
    while the stream is not good. *)
Definition loop_measure (w : world) : nat :=
  (List.length (ibuf (cin w))
   + if good (istate (cin w)) then 0 else 1)%nat.

(** *** Vocabulary of the further properties *)

(** The value a token of the element type stands for. *)
Definition token_value (s : scalar) (tok : list ascii) : sval :=
  match s with
  | SInt => VInt (int_value tok)
  | SStr => VStr (string_of_list_ascii tok)
  | SChar => VChar (hd zero tok)
  | SInteger k => VInteger k (int_value tok)
  end.

(** As many tokens as scalar types, each a token of its type. *)
Fixpoint tokens_match (tys : list scalar) (toks : list (list ascii)) : bool :=
  match tys, toks with
  | [], [] => true
  | s :: tys', tok :: toks' => (is_token s tok && tokens_match tys' toks')%bool
  | _, _ => false
  end.

Fixpoint token_values (tys : list scalar) (toks : list (list ascii))
  : list sval :=
  match tys, toks with
  | s :: tys', tok :: toks' => token_value s tok :: token_values tys' toks'
  | _, _ => []
  end.

(** What is left of a line behind its first [n] tokens. *)
Fixpoint drop_words (n : nat) (l : list ascii) : list ascii :=
  match n with
  | O => l
  | S k => drop_words k (snd (span non_space (skip_ws l)))
  end.

(** The last character of the line is white space. *)
Definition ends_in_space (l : list ascii) : bool :=
  match rev l with
  | c :: _ => is_space c
  | [] => false
  end.

(** The text in front of a token ends where a token can start: it is empty
    or ends in white space. *)
Definition clean_end (pre : list ascii) : bool :=
  (is_nil pre || ends_in_space pre)%bool.

(** The state bits after a token was extracted with [rest] behind it:
    [num_get] and the string extraction look at the next character and so
    notice the end of the buffer, the [char] extraction does not. *)
Definition state_after (s : scalar) (rest : list ascii) : iostate :=
  match s with
  | SChar => goodbit
  | _ => mk_iostate (is_nil rest) false false
  end.

(** A stream on which nothing more can be extracted: good with white space
    only, or at [eof] with an empty buffer. *)
Definition used_up (ss : sstream) : Prop :=
  (sstate ss = goodbit /\ forallb is_space (sbuf ss) = true) \/
  (eofbit (sstate ss) = true /\ badbit (sstate ss) = false /\ sbuf ss = []).

(** A tuple of freshly declared scalars. *)
Definition scalar_slots (tys : list scalar) : list value :=
  map default_value (map TScalar tys).

(** * Properties *)

(** ** Buffers, white space and tokens *)

Lemma span_app (p : ascii -> bool) (l : list ascii) :
  l = fst (span p l) ++ snd (span p l).
Proof.
  induction l as [|c r IH]; simpl; [reflexivity|].
  destruct (p c); [|reflexivity].
  destruct (span p r) as [a b]; simpl in *. now rewrite IH at 1.
Qed.

Lemma span_all (p : ascii -> bool) (a rest : list ascii) :
  forallb p a = true ->
  (rest = [] \/ exists c r, rest = c :: r /\ p c = false) ->
  span p (a ++ rest) = (a, rest).
Proof.
  intros Ha Hr. induction a as [|x a IH]; simpl in *.
  - destruct Hr as [->|(c & r & -> & Hc)]; simpl; [reflexivity|].
    now rewrite Hc.
  - apply andb_true_iff in Ha as [Hx Ha]. rewrite Hx, (IH Ha). reflexivity.
Qed.

Lemma span_fst_all (p : ascii -> bool) (l : list ascii) :
  forallb p (fst (span p l)) = true.
Proof.
  induction l as [|c r IH]; simpl; [reflexivity|].
  destruct (p c) eqn:E; [|reflexivity].
  destruct (span p r) as [a b]; simpl in *. now rewrite E.
Qed.

Lemma span_snd_head (p : ascii -> bool) (l : list ascii) :
  snd (span p l) = [] \/
  exists c r, snd (span p l) = c :: r /\ p c = false.
Proof.
  induction l as [|c r IH]; simpl; [now left|].
  destruct (p c) eqn:E.
  - destruct (span p r) as [a b]; simpl in *. exact IH.
  - right. now exists c, r.
Qed.

Lemma span_length (p : ascii -> bool) (l : list ascii) :
  (List.length (fst (span p l)) + List.length (snd (span p l))
   = List.length l)%nat.
Proof.
  rewrite (span_app p l) at 3. now rewrite length_app.
Qed.

Lemma skip_ws_length (l : list ascii) :
  (List.length (skip_ws l) <= List.length l)%nat.
Proof.
  induction l as [|c r IH]; simpl; [lia|].
  destruct (is_space c); simpl; lia.
Qed.

Lemma skip_ws_spaces (ws l : list ascii) :
  forallb is_space ws = true -> skip_ws (ws ++ l) = skip_ws l.
Proof.
  induction ws as [|c ws IH]; simpl; [reflexivity|].
  intros H. apply andb_true_iff in H as [Hc H]. now rewrite Hc, IH.
Qed.

Lemma skip_ws_all_space (l : list ascii) :
  forallb is_space l = true -> skip_ws l = [].
Proof.
  intros H. rewrite <- (app_nil_r l). now rewrite skip_ws_spaces.
Qed.

Lemma skip_ws_head (l : list ascii) (c : ascii) (r : list ascii) :
  skip_ws l = c :: r -> is_space c = false.
Proof.
  induction l as [|x l IH]; simpl; [discriminate|].
  destruct (is_space x) eqn:E; [exact IH|].
  intros [= -> _]. exact E.
Qed.

Lemma skip_ws_decompose (l : list ascii) :
  exists ws, forallb is_space ws = true /\ l = ws ++ skip_ws l.
Proof.
  induction l as [|c r (ws & Hws & IH)]; simpl.
  - now exists [].
  - destruct (is_space c) eqn:E.
    + exists (c :: ws). simpl. rewrite E, Hws. split; [reflexivity|].
      now rewrite IH at 1.
    + now exists [].
Qed.

Lemma words_skip_ws (l : list ascii) : words l = words (skip_ws l).
Proof.
  induction l as [|c r IH]; [reflexivity|].
  simpl skip_ws. destruct (is_space c) eqn:E; [|reflexivity].
  simpl. now rewrite E.
Qed.

Lemma words_span (c : ascii) (r : list ascii) :
  is_space c = false ->
  words (c :: r)
  = fst (span non_space (c :: r)) :: words (snd (span non_space (c :: r))).
Proof.
  revert c. induction r as [|d r IH]; intros c Hc.
  - simpl. unfold non_space. now rewrite Hc.
  - specialize (IH d).
    change (words (c :: d :: r)) with
      (if is_space c then words (d :: r)
       else if is_space d then [c] :: words (d :: r)
            else match words (d :: r) with
                 | w :: ws => (c :: w) :: ws
                 | [] => [[c]]
                 end).
    rewrite Hc.
    change (span non_space (c :: d :: r)) with
      (if non_space c
       then let '(a, b) := span non_space (d :: r) in (c :: a, b)
       else ([], c :: d :: r)).
    unfold non_space at 1 3. rewrite Hc. simpl negb. cbv iota.
    destruct (is_space d) eqn:Hd.
    + assert (Hs : span non_space (d :: r) = ([], d :: r)).
      { simpl. unfold non_space. now rewrite Hd. }
      rewrite Hs. reflexivity.
    + rewrite (IH eq_refl). destruct (span non_space (d :: r)) as [a b].
      reflexivity.
Qed.

(** A line with a first token is white space, the token, and a remainder
    that is empty or starts with white space. *)
Lemma words_cons_inv (l tok : list ascii) (more : list (list ascii)) :
  words l = tok :: more ->
  exists ws rest,
    l = ws ++ tok ++ rest /\
    forallb is_space ws = true /\
    tok <> [] /\ forallb non_space tok = true /\
    (rest = [] \/ exists c r, rest = c :: r /\ is_space c = true) /\
    words rest = more.
Proof.
  intros H. destruct (skip_ws_decompose l) as (ws & Hws & Hl).
  rewrite words_skip_ws in H.
  destruct (skip_ws l) as [|c r] eqn:E; [discriminate|].
  pose proof (skip_ws_head _ _ _ E) as Hc.
  rewrite (words_span c r Hc) in H.
  pose proof (span_app non_space (c :: r)) as Happ.
  pose proof (span_fst_all non_space (c :: r)) as Hall.
  pose proof (span_snd_head non_space (c :: r)) as Hhead.
  assert (Hne : fst (span non_space (c :: r)) <> []).
  { simpl. unfold non_space at 1. rewrite Hc. simpl.
    destruct (span non_space r); discriminate. }
  destruct (span non_space (c :: r)) as [a b]. simpl fst in *. simpl snd in *.
  injection H as Htok Hmore. subst a.
  exists ws, b. repeat split; try assumption.
  - rewrite Hl at 1. now rewrite Happ.
  - destruct Hhead as [->|(x & y & -> & Hx)]; [now left|right].
    exists x, y. split; [reflexivity|].
    unfold non_space in Hx. now destruct (is_space x).
Qed.

Lemma words_all_space (l : list ascii) :
  words l = [] -> forallb is_space l = true.
Proof.
  induction l as [|c r IH]; [reflexivity|].
  intros H. simpl. destruct (is_space c) eqn:E.
  - apply IH. simpl in H. now rewrite E in H.
  - rewrite (words_span c r E) in H. discriminate.
Qed.

Lemma words_length (l : list ascii) :
  (List.length (words l) <= List.length l)%nat.
Proof.
  remember (List.length l) as n eqn:Hn. revert l Hn.
  induction n as [n IH] using lt_wf_ind. intros l Hn.
  destruct (words l) as [|tok more] eqn:E; [simpl; lia|].
  destruct (words_cons_inv _ _ _ E) as (ws & rest & Hl & _ & Hne & _ & _ & Hm).
  assert (Hlen : (List.length rest < n)%nat).
  { rewrite Hn, Hl, !length_app. destruct tok; [congruence|simpl; lia]. }
  specialize (IH _ Hlen rest eq_refl). rewrite Hm in IH. simpl. lia.
Qed.

(** ** The extractions: state bits, progress, failure *)

Lemma good_goodbit (st : iostate) : good st = true -> st = goodbit.
Proof.
  destruct st as [[] [] []]; simpl; intros H; try discriminate H; reflexivity.
Qed.

Lemma sentry_ok (ss ss1 : sstream) :
  sentry ss = (true, ss1) ->
  sstate ss = goodbit /\ sstate ss1 = goodbit /\
  sbuf ss1 = skip_ws (sbuf ss) /\ sbuf ss1 <> [].
Proof.
  unfold sentry. destruct (good (sstate ss)) eqn:G; [|discriminate].
  apply good_goodbit in G.
  destruct (skip_ws (sbuf ss)) eqn:E; [discriminate|].
  intros [= <-]. simpl. rewrite G. repeat split; discriminate.
Qed.

Lemma sentry_not_ok (ss ss1 : sstream) :
  sentry ss = (false, ss1) ->
  failbit (sstate ss1) = true /\
  badbit (sstate ss1) = badbit (sstate ss) /\
  (List.length (sbuf ss1) <= List.length (sbuf ss))%nat /\
  (eofbit (sstate ss1) = eofbit (sstate ss) /\ sbuf ss1 = sbuf ss
   \/ sbuf ss1 = []).
Proof.
  unfold sentry. destruct (good (sstate ss)) eqn:G.
  - apply good_goodbit in G.
    destruct (skip_ws (sbuf ss)) eqn:E; [|discriminate].
    intros [= <-]. simpl. rewrite G. simpl. repeat split; [lia|now right].
  - intros [= <-]. simpl. rewrite !orb_false_r, orb_true_r.
    repeat split; [lia|now left].
Qed.

Lemma sentry_spaces (ws : list ascii) (c : ascii) (r : list ascii) :
  forallb is_space ws = true -> is_space c = false ->
  sentry (mk_sstream (ws ++ c :: r) goodbit)
  = (true, mk_sstream (c :: r) goodbit).
Proof.
  intros Hws Hc. unfold sentry. simpl.
  rewrite (skip_ws_spaces _ _ Hws). simpl. now rewrite Hc.
Qed.

Lemma sentry_all_space (l : list ascii) :
  forallb is_space l = true ->
  sentry (mk_sstream l goodbit)
  = (false, mk_sstream [] (mk_iostate true true false)).
Proof.
  intros H. unfold sentry. simpl. now rewrite (skip_ws_all_space _ H).
Qed.

Lemma read_sign_length (l : list ascii) :
  (List.length (snd (read_sign l)) <= List.length l)%nat.
Proof.
  destruct l as [|c r]; simpl; [lia|].
  destruct (Ascii.eqb c "-"); simpl; [lia|].
  destruct (Ascii.eqb c "+"); simpl; lia.
Qed.

Lemma ss_inv_fresh (s : list ascii) : ss_inv (mk_sstream s goodbit).
Proof. split; simpl; [reflexivity|discriminate]. Qed.

Lemma ss_inv_sentry (ss ss1 : sstream) (ok : bool) :
  ss_inv ss -> sentry ss = (ok, ss1) -> ss_inv ss1.
Proof.
  intros [Hb He] H. destruct ok.
  - destruct (sentry_ok _ _ H) as (_ & G & _). split; rewrite G; simpl;
      [reflexivity|discriminate].
  - destruct (sentry_not_ok _ _ H) as (_ & B & _ & [[E S]|S]); split;
      try congruence.
    rewrite E, S. exact He.
Qed.

(** The usual first step on an extraction: the sentry let it through, with
    [G] the state it left and [I1] the invariant, or it did not and the
    invariant [I1] is all that is asked for. *)
Ltac through_sentry I S I1 G ss1 :=
  match goal with
  | |- context [sentry ?ss] =>
      destruct (sentry ss) as [[] ss1] eqn:S;
      pose proof (ss_inv_sentry _ _ _ I S) as I1;
      [destruct (sentry_ok _ _ S) as (_ & G & _ & _) | exact I1]
  end.

(** The sentry did not let the extraction through: the stream has failed. *)
Ltac sentry_failed S :=
  let F := fresh "F" in
  destruct (sentry_not_ok _ _ S) as (F & _); simpl; unfold Ios.fail;
  now rewrite F.

Lemma extract_int_inv (old : Z) (ss : sstream) :
  ss_inv ss -> ss_inv (snd (extract_int old ss)).
Proof.
  intros I. unfold extract_int. through_sentry I Hse I1 G ss1.
  destruct (read_sign (sbuf ss1)) as [neg l1].
  destruct (span is_digit l1) as [ds l2]. rewrite G.
  destruct ds; [|destruct (_ <? INT_MIN); [|destruct (INT_MAX <? _)]];
    split; simpl; try reflexivity; destruct l2; simpl; congruence.
Qed.

Lemma extract_string_inv (old : string) (ss : sstream) :
  ss_inv ss -> ss_inv (snd (extract_string old ss)).
Proof.
  intros I. unfold extract_string. through_sentry I Hse I1 G ss1.
  destruct (span _ (sbuf ss1)) as [w l2]. rewrite G.
  split; simpl; [reflexivity|]. destruct l2; simpl; congruence.
Qed.

Lemma extract_char_inv (old : ascii) (ss : sstream) :
  ss_inv ss -> ss_inv (snd (extract_char old ss)).
Proof.
  intros I. unfold extract_char. through_sentry I Hse I1 G ss1.
  destruct (sentry_ok _ _ Hse) as (_ & _ & _ & N).
  destruct (sbuf ss1); [congruence|]. rewrite G.
  split; simpl; [reflexivity|discriminate].
Qed.

Lemma extract_integer_inv (lo hi old : Z) (ss : sstream) :
  ss_inv ss -> ss_inv (snd (extract_integer lo hi old ss)).
Proof.
  intros I. unfold extract_integer. through_sentry I Hse I1 G ss1.
  destruct (read_sign (sbuf ss1)) as [neg l1].
  destruct (span is_digit l1) as [ds l2]. rewrite G.
  destruct ds; [|destruct (_ <? lo); [|destruct (hi <? _)]];
    split; simpl; try reflexivity; destruct l2; simpl; congruence.
Qed.

Lemma extract_scalar_inv (old : sval) (ss : sstream) :
  ss_inv ss -> ss_inv (snd (extract_scalar old ss)).
Proof.
  intros I. destruct old as [z|x|c|k z]; simpl.
  - pose proof (extract_int_inv z ss I). now destruct (extract_int z ss).
  - pose proof (extract_string_inv x ss I). now destruct (extract_string x ss).
  - pose proof (extract_char_inv c ss I). now destruct (extract_char c ss).
  - pose proof (extract_integer_inv (integer_min k) (integer_max k) z ss I).
    now destruct (extract_integer _ _ z ss).
Qed.

(** An extraction that does not fail has taken at least one character. *)
Lemma extract_scalar_progress (old : sval) (ss : sstream) :
  Ios.fail (sstate (snd (extract_scalar old ss))) = false ->
  (List.length (sbuf (snd (extract_scalar old ss)))
   < List.length (sbuf ss))%nat.
Proof.
  pose proof (skip_ws_length (sbuf ss)) as L1.
  destruct old as [z|x|c|k z]; simpl.
  4: { unfold extract_integer.
       destruct (sentry ss) as [[] ss1] eqn:Hse; [|sentry_failed Hse].
       destruct (sentry_ok _ _ Hse) as (_ & G & B & _).
       pose proof (read_sign_length (sbuf ss1)) as L2.
       destruct (read_sign (sbuf ss1)) as [neg l1]. simpl in L2.
       pose proof (span_length is_digit l1) as L3.
       destruct (span is_digit l1) as [ds l2]. simpl in L3. rewrite G.
       destruct ds; [simpl; discriminate|].
       destruct (_ <? integer_min k); [simpl; discriminate|].
       destruct (integer_max k <? _); [simpl; discriminate|].
       simpl in *. intros _. rewrite B in L2. lia. }
  - unfold extract_int.
    destruct (sentry ss) as [[] ss1] eqn:Hse; [|sentry_failed Hse].
    destruct (sentry_ok _ _ Hse) as (_ & G & B & _).
    pose proof (read_sign_length (sbuf ss1)) as L2.
    destruct (read_sign (sbuf ss1)) as [neg l1]. simpl in L2.
    pose proof (span_length is_digit l1) as L3.
    destruct (span is_digit l1) as [ds l2]. simpl in L3. rewrite G.
    destruct ds; [simpl; discriminate|].
    destruct (_ <? INT_MIN); [simpl; discriminate|].
    destruct (INT_MAX <? _); [simpl; discriminate|].
    simpl in *. intros _. rewrite B in L2. lia.
  - unfold extract_string.
    destruct (sentry ss) as [[] ss1] eqn:Hse; [|sentry_failed Hse].
    destruct (sentry_ok _ _ Hse) as (_ & G & B & _).
    pose proof (span_length (fun c => negb (is_space c)) (sbuf ss1)) as L3.
    destruct (span _ (sbuf ss1)) as [w l2]. simpl in L3. rewrite G.
    destruct w; [simpl; discriminate|].
    simpl in *. intros _. rewrite B in L3. lia.
  - unfold extract_char.
    destruct (sentry ss) as [[] ss1] eqn:Hse; [|sentry_failed Hse].
    destruct (sentry_ok _ _ Hse) as (_ & G & B & N).
    destruct (sbuf ss1) eqn:E; [congruence|]. simpl. intros _.
    rewrite <- B in L1. simpl in L1. lia.
Qed.

(** On a stream that is not good every extraction fails. *)
Lemma extract_scalar_not_good (old : sval) (ss : sstream) :
  good (sstate ss) = false ->
  Ios.fail (sstate (snd (extract_scalar old ss))) = true.
Proof.
  intros G.
  assert (S : sentry ss = (false, ss_setstate only_fail ss)).
  { unfold sentry. now rewrite G. }
  assert (F : Ios.fail (sstate (ss_setstate only_fail ss)) = true).
  { unfold Ios.fail. simpl. now rewrite orb_true_r. }
  destruct old; simpl.
  - unfold extract_int. now rewrite S.
  - unfold extract_string. now rewrite S.
  - unfold extract_char. now rewrite S.
  - unfold extract_integer. now rewrite S.
Qed.

(** ** The vector loop ends *)

Lemma vector_loop_total (s : scalar) (fuel : nat) (ss : sstream)
  (vector : list sval) :
  (List.length (sbuf ss) < fuel)%nat ->
  exists r, vector_loop fuel s ss vector = Some r.
Proof.
  revert ss vector. induction fuel as [|fuel IH]; intros ss vector H; [lia|].
  simpl.
  pose proof (extract_scalar_progress (default_scalar s) ss) as P.
  destruct (extract_scalar (default_scalar s) ss) as [t ss1]. simpl in P.
  destruct (Ios.fail (sstate ss1)); [eauto|].
  apply IH. specialize (P eq_refl). lia.
Qed.

Lemma vector_loop_more_fuel (s : scalar) (fuel fuel' : nat) (ss : sstream)
  (vector : list sval) (r : list sval * sstream) :
  vector_loop fuel s ss vector = Some r -> (fuel <= fuel')%nat ->
  vector_loop fuel' s ss vector = Some r.
Proof.
  revert fuel' ss vector.
  induction fuel as [|fuel IH]; intros fuel' ss vector; [discriminate|].
  destruct fuel' as [|fuel']; [lia|]. simpl.
  destruct (extract_scalar (default_scalar s) ss) as [t ss1].
  destruct (Ios.fail (sstate ss1)); [auto|].
  intros H L. apply IH; [exact H|lia].
Qed.

Lemma vector_loop_inv (s : scalar) (fuel : nat) (ss : sstream)
  (vector : list sval) (r : list sval * sstream) :
  ss_inv ss -> vector_loop fuel s ss vector = Some r ->
  ss_inv (snd r) /\ Ios.fail (sstate (snd r)) = true.
Proof.
  revert ss vector. induction fuel as [|fuel IH]; intros ss vector I;
    [discriminate|].
  simpl.
  pose proof (extract_scalar_inv (default_scalar s) ss I) as I1.
  destruct (extract_scalar (default_scalar s) ss) as [t ss1]. simpl in I1.
  destruct (Ios.fail (sstate ss1)) eqn:F.
  - intros [= <-]. now split.
  - apply IH. exact I1.
Qed.

Theorem extract_vector_total (s : scalar) (ss : sstream) (vector : list sval) :
  exists r, extract_vector s ss vector = Some r.
Proof.
  unfold extract_vector.
  destruct (vector_loop_total s (S (List.length (sbuf ss))) ss vector)
    as [[v ss1] ->]; [lia|eauto].
Qed.

Lemma extract_vector_inv (s : scalar) (ss : sstream) (vector : list sval)
  (r : list sval * sstream) :
  ss_inv ss -> extract_vector s ss vector = Some r ->
  ss_inv (snd r) /\ Ios.fail (sstate (snd r)) = false.
Proof.
  intros I. unfold extract_vector.
  destruct (vector_loop _ s ss vector) as [[v ss1]|] eqn:E; [|discriminate].
  destruct (vector_loop_inv _ _ _ _ _ I E) as [[B Eo] F]. simpl in *.
  rewrite F. intros [= <-]. simpl.
  unfold Ios.fail in *. rewrite B in *. rewrite orb_false_r in F.
  unfold ss_inv. simpl. rewrite B, F. simpl. rewrite xorb_false_r. auto.
Qed.

Lemma input_stream_inv (array : list sval) (ss : sstream) :
  ss_inv ss -> ss_inv (snd (input_stream ss array)).
Proof.
  revert ss. induction array as [|a r IH]; intros ss I; [exact I|].
  simpl. pose proof (extract_scalar_inv a ss I) as I1.
  destruct (extract_scalar a ss) as [v ss1]. simpl in I1.
  specialize (IH ss1 I1). now destruct (input_stream ss1 r).
Qed.

Lemma extract_total (t : value) (ss : sstream) :
  exists r, extract t ss = Some r.
Proof.
  destruct t as [v|vs|s vs]; simpl.
  - destruct (extract_scalar v ss); eauto.
  - destruct (input_stream ss vs); eauto.
  - destruct (extract_vector_total s ss vs) as [[v ss1] ->]. eauto.
Qed.

Lemma extract_inv (t : value) (ss : sstream) (r : value * sstream) :
  ss_inv ss -> extract t ss = Some r -> ss_inv (snd r).
Proof.
  intros I. destruct t as [v|vs|s vs]; simpl.
  - pose proof (extract_scalar_inv v ss I).
    destruct (extract_scalar v ss). now intros [= <-].
  - pose proof (input_stream_inv vs ss I).
    destruct (input_stream ss vs). now intros [= <-].
  - destruct (extract_vector s ss vs) as [[v ss1]|] eqn:E; [|discriminate].
    intros [= <-]. exact (proj1 (extract_vector_inv _ _ _ _ I E)).
Qed.

Lemma fill_slots_total (t : list value) (ss : sstream) :
  exists r, fill_slots t ss = Some r.
Proof.
  revert ss. induction t as [|a b IH]; intros ss; simpl; [eauto|].
  destruct (extract_total a ss) as [[a' ss1] ->].
  destruct (IH ss1) as [[b' ss2] ->]. eauto.
Qed.

Lemma fill_slots_inv (t : list value) (ss : sstream)
  (r : list value * sstream) :
  ss_inv ss -> fill_slots t ss = Some r -> ss_inv (snd r).
Proof.
  revert ss r. induction t as [|a b IH]; intros ss r I; simpl.
  - now intros [= <-].
  - destruct (extract a ss) as [[a' ss1]|] eqn:E; [|discriminate].
    pose proof (extract_inv _ _ _ I E) as I1. simpl in I1.
    destruct (fill_slots b ss1) as [[b' ss2]|] eqn:E2; [|discriminate].
    intros [= <-]. exact (IH _ _ I1 E2).
Qed.

(** The fill of a line always yields a result: the stream is not bad, and it
    is at [eof] exactly when the whole line was used. *)
Theorem fill_line_total (s : list ascii) (t : list value) :
  exists t' ss,
    fill_line s t = Some (t', ss) /\
    badbit (sstate ss) = false /\
    eofbit (sstate ss) = is_nil (sbuf ss).
Proof.
  unfold fill_line.
  destruct (fill_slots_total t (mk_sstream s goodbit)) as [[t' ss] E].
  rewrite E.
  destruct (fill_slots_inv _ _ _ (ss_inv_fresh s) E) as [B Eo]. simpl in *.
  unfold in_avail. destruct (sbuf ss) as [|c r] eqn:Eb; simpl.
  - eexists _, _. split; [reflexivity|]. simpl. rewrite B, Eb.
    now rewrite orb_true_r.
  - eexists _, _. split; [reflexivity|]. rewrite B, Eb. split; [reflexivity|].
    simpl. destruct (eofbit (sstate ss)); [|reflexivity].
    now specialize (Eo eq_refl).
Qed.

(** ** Reading a line *)

Lemma read_line_terminated (line : list ascii) (rest : list event) :
  no_newline line = true ->
  read_line (map Ch line ++ Ch newline :: rest) = (line, rest, AtDelim).
Proof.
  induction line as [|c l IH]; simpl.
  - intros _. reflexivity.
  - intros H. apply andb_true_iff in H as [Hc H].
    apply negb_true_iff in Hc. rewrite Hc, (IH H). reflexivity.
Qed.

Lemma read_line_length (evs : list event) :
  live evs = true ->
  let '(s, rest, why) := read_line evs in
  live rest = true /\
  match why with
  | AtEof => rest = [] /\ evs = map Ch s
  | _ => (List.length rest < List.length evs)%nat
  end.
Proof.
  induction evs as [|e r IH]; simpl; [now repeat split|].
  destruct e as [c| |]; try discriminate; intros Lv;
    [|split; [exact Lv|simpl; lia]].
  destruct (Ascii.eqb c newline); [split; [exact Lv|simpl; lia]|].
  specialize (IH Lv). destruct (read_line r) as [[s rest] why].
  destruct IH as [Lr IH]. split; [exact Lr|].
  destruct why; simpl; try lia.
  destruct IH as [-> ->]. now split.
Qed.

Lemma getline_with_line (line : list ascii) (rest : list event) :
  no_newline line = true ->
  getline (mk_istream (map Ch line ++ Ch newline :: rest) goodbit)
  = (line, mk_istream rest goodbit).
Proof.
  intros H. unfold getline. simpl.
  rewrite (read_line_terminated _ _ H).
  replace (Nat.eqb (List.length line + 1) 0) with false; [reflexivity|].
  symmetry. apply Nat.eqb_neq. lia.
Qed.

(** A line that does not leave by the exception has taken something from the
    input, unless the stream was not good to begin with or the device is
    dead. *)
Lemma getline_measure (ist : istream) :
  live (ibuf ist) = true ->
  let '(s, ist') := getline ist in
  live (ibuf ist') = true /\
  (eof (istate ist') = false ->
   (List.length (ibuf ist')
    < List.length (ibuf ist) + if good (istate ist) then 0 else 1)%nat).
Proof.
  intros Lv. unfold getline. destruct (good (istate ist)) eqn:G.
  - pose proof (read_line_length (ibuf ist) Lv) as L.
    destruct (read_line (ibuf ist)) as [[s rest] why].
    destruct L as [Lr L]. split; [exact Lr|].
    apply good_goodbit in G. rewrite G. simpl.
    destruct why; simpl; try lia.
    destruct (Nat.eqb _ 0); simpl; discriminate.
  - simpl. split; [exact Lv|lia].
Qed.

(** ** One attempt on a given line *)

Lemma get_line_fill_line (t t' : list value) (line : list ascii)
  (ss : sstream) (rest : list event) (out err : string) :
  no_newline line = true ->
  single_string_empty line t = false ->
  fill_line line t = Some (t', ss) ->
  get_line_fill t (with_line line rest out err)
  = Ret t' (mk_world (mk_istream rest (sstate ss)) out err).
Proof.
  intros Hn Hs Hf. unfold get_line_fill, with_line. simpl cin.
  rewrite (getline_with_line _ _ Hn). simpl. rewrite Hs, Hf.
  unfold set_cin, is_setstate. simpl. now destruct (sstate ss).
Qed.

(** ** The calls end *)

Lemma get_line_fill_cases (t : list value) (w : world) :
  live (ibuf (cin w)) = true ->
  (exists w1, get_line_fill t w = Eof_exception w1) \/
  (exists t1 w1, get_line_fill t w = Ret t1 w1 /\
     cout w1 = cout w /\ cerr w1 = cerr w /\
     live (ibuf (cin w1)) = true /\
     (List.length (ibuf (cin w1)) < loop_measure w)%nat).
Proof.
  intros Lv. unfold get_line_fill, loop_measure.
  pose proof (getline_measure (cin w) Lv) as M.
  destruct (getline (cin w)) as [s ist]. destruct M as [Lr M].
  destruct (eof (istate ist)); [left; eauto|right].
  specialize (M eq_refl).
  destruct (negb (good (istate ist)));
    [eexists _, _; (split; [reflexivity|]); simpl; auto|].
  destruct (single_string_empty s t);
    [eexists _, _; (split; [reflexivity|]); simpl; auto|].
  destruct (fill_line_total s t) as (t' & ss & -> & _).
  eexists _, _; (split; [reflexivity|]); simpl; auto.
Qed.

Lemma fill_slots_length (t t' : list value) (ss ss' : sstream) :
  fill_slots t ss = Some (t', ss') -> List.length t' = List.length t.
Proof.
  revert t' ss ss'. induction t as [|a b IH]; intros t' ss ss'; simpl.
  - now intros [= <- _].
  - destruct (extract a ss) as [[a' ss1]|]; [|discriminate].
    destruct (fill_slots b ss1) as [[b' ss2]|] eqn:E; [|discriminate].
    intros [= <- _]. simpl. f_equal. exact (IH _ _ _ E).
Qed.

Lemma errors_after_last (t : list value) (a : value)
  (condition : value -> bool) :
  errors_after (t ++ [a]) condition = condition_errors a condition.
Proof. unfold errors_after. now rewrite fold_left_app. Qed.

(** ** Attempts and the prompt loop

    The arguments every attempt of one call shares. *)

Section PromptLoop.

Variables (message : string) (condition : value -> bool)
  (condition_error parse_error : string).

(** What [ask_for_impl] does with a line that went through the fill. *)
Lemma ask_for_impl_line (t t' : list value)
  (line : list ascii) (ss : sstream) (rest : list event) (out err : string) :
  no_newline line = true ->
  single_string_empty line t = false ->
  fill_line line t = Some (t', ss) ->
  ask_for_impl message condition condition_error parse_error t
    (with_line line rest out err)
  = if failbit (sstate ss) then
      Ret (false, t') (asked_again message parse_error rest out err)
    else if negb (is_nil (sbuf ss)) then
      Ret (false, t') (asked_again message "Error: excess input" rest out err)
    else if errors_after t' condition then
      Ret (false, t') (asked_again message condition_error rest out err)
    else Ret (true, t') (accepted message rest out err).
Proof.
  intros Hn Hs Hf.
  destruct (fill_line_total line t) as (t0 & ss0 & Hf0 & B & E).
  rewrite Hf in Hf0. injection Hf0 as <- <-.
  unfold ask_for_impl.
  change (put_cout message (with_line line rest out err))
    with (with_line line rest (out ++ message) err).
  rewrite (get_line_fill_line _ _ _ _ _ _ _ Hn Hs Hf). simpl.
  unfold bad, Ios.fail, eof. rewrite B, E, orb_false_r.
  destruct (failbit (sstate ss)); [reflexivity|].
  destruct (is_nil (sbuf ss)); simpl; [|reflexivity].
  destruct (errors_after t' condition); reflexivity.
Qed.

(** On a device that is not dead an attempt either leaves by
    [Eof_exception] or returns with the stream cleared and the input shorter
    (or the stream repaired). *)
Lemma ask_for_impl_cases (t : list value) (w : world) :
  live (ibuf (cin w)) = true ->
  (exists w1,
     ask_for_impl message condition condition_error parse_error t w
     = Eof_exception w1) \/
  (exists b t1 w1,
     ask_for_impl message condition condition_error parse_error t w
     = Ret (b, t1) w1 /\
     istate (cin w1) = goodbit /\
     live (ibuf (cin w1)) = true /\
     (loop_measure w1 < loop_measure w)%nat).
Proof.
  intros Lv. unfold ask_for_impl.
  destruct (get_line_fill_cases t (put_cout message w) Lv)
    as [[w1 ->]|(t1 & w1 & -> & _ & _ & Lr & L)]; [left; eauto|right].
  change (loop_measure (put_cout message w)) with (loop_measure w) in L.
  destruct (bad (istate (cin w1)));
    [|destruct (Ios.fail (istate (cin w1)));
      [|destruct (negb (eof (istate (cin w1))));
        [|destruct (errors_after t1 condition)]]];
    eexists _, _, _; (split; [reflexivity|]);
    unfold loop_measure in *; simpl;
    (split; [reflexivity|split; [exact Lr|lia]]).
Qed.

Lemma ask_for_loop_ends (tys : list slot_ty)
  (fuel : nat) (w : world) :
  live (ibuf (cin w)) = true ->
  (loop_measure w < fuel)%nat ->
  ask_for_loop fuel message condition condition_error parse_error tys w
  <> Fuel.
Proof.
  revert w. induction fuel as [|fuel IH]; intros w Lv L; [lia|]. simpl.
  destruct (ask_for_impl_cases (map default_value tys) w Lv)
    as [[w1 ->]|(b & t1 & w1 & -> & _ & Lr & M)]; [discriminate|].
  destruct b; [discriminate|]. apply IH; [exact Lr|lia].
Qed.

Lemma ask_for_loop_more_fuel (tys : list slot_ty)
  (fuel fuel' : nat) (w : world) :
  ask_for_loop fuel message condition condition_error parse_error tys w
  <> Fuel ->
  (fuel <= fuel')%nat ->
  ask_for_loop fuel' message condition condition_error parse_error tys w
  = ask_for_loop fuel message condition condition_error parse_error tys w.
Proof.
  revert fuel' w. induction fuel as [|fuel IH]; intros fuel' w H L.
  - now contradiction H.
  - destruct fuel' as [|fuel']; [lia|]. simpl in *.
    destruct (ask_for_impl _ _ _ _ _ w) as [[[] t1] w1|w1|]; try reflexivity.
    apply IH; [exact H|lia].
Qed.

(** A rejected attempt is followed by a fresh one. *)
Lemma ask_for_loop_retry (tys : list slot_ty)
  (fuel : nat) (w w1 : world) (t : list value) :
  ask_for_impl message condition condition_error parse_error
    (map default_value tys) w = Ret (false, t) w1 ->
  ask_for_loop (S fuel) message condition condition_error parse_error tys w
  = ask_for_loop fuel message condition condition_error parse_error tys w1.
Proof. intros H. simpl. now rewrite H. Qed.

Lemma ask_for_loop_accept (tys : list slot_ty)
  (fuel : nat) (w w1 : world) (t : list value) :
  ask_for_impl message condition condition_error parse_error
    (map default_value tys) w = Ret (true, t) w1 ->
  ask_for_loop (S fuel) message condition condition_error parse_error tys w
  = Ret t w1.
Proof. intros H. simpl. now rewrite H. Qed.

(** X1.  On a finite input whose read faults are each met once (the
    device is never dead), and for objects that are scalars, arrays of
    scalars or vectors of scalars, the prompt loop comes to an end, whatever
    the state of the stream at the start: it has then returned the objects
    or left by [Eof_exception]. *)
Theorem ask_for_loop_total (tys : list slot_ty) (w : world) :
  live (ibuf (cin w)) = true ->
  (exists t w1,
     ask_for_loop (enough w) message condition condition_error parse_error
       tys w = Ret t w1) \/
  (exists w1,
     ask_for_loop (enough w) message condition condition_error parse_error
       tys w = Eof_exception w1).
Proof.
  intros Lv.
  assert (L : (loop_measure w < enough w)%nat).
  { unfold loop_measure, enough. destruct (good _); lia. }
  pose proof (ask_for_loop_ends tys _ _ Lv L) as H.
  destruct (ask_for_loop _ _ _ _ _ _ w); [left|right|]; eauto.
  now contradiction H.
Qed.

(** *** Verdicts

    One attempt on a terminated line ends as its verdict says. *)
Lemma ask_for_impl_verdict (t : list value)
  (line : list ascii) (rest : list event) (out err : string) :
  no_newline line = true ->
  ask_for_impl message condition condition_error parse_error t
    (with_line line rest out err)
  = if is_accepted (verdict_of condition t line) then
      Ret (true, filled t line) (accepted message rest out err)
    else
      Ret (false, filled t line)
        (asked_again message
           (message_of (verdict_of condition t line) condition_error
              parse_error) rest out err).
Proof.
  intros Hn. unfold verdict_of, filled.
  destruct (single_string_empty line t) eqn:S.
  - unfold ask_for_impl, get_line_fill.
    change (cin (put_cout message (with_line line rest out err)))
      with (mk_istream (map Ch line ++ Ch newline :: rest) goodbit).
    rewrite (getline_with_line _ _ Hn). simpl. rewrite S. simpl.
    destruct (errors_after t condition); reflexivity.
  - destruct (fill_line_total line t) as (t' & ss & E & _).
    rewrite (ask_for_impl_line _ _ _ _ _ _ _ Hn S E), E.
    destruct (failbit (sstate ss)); [reflexivity|].
    destruct (negb (is_nil (sbuf ss))); [reflexivity|].
    destruct (errors_after t' condition); reflexivity.
Qed.

(** X2.  There is no bound on the attempts: however many lines are turned
    down (as a parse failure, as excess input or by the condition), the loop
    prompts again after each, printing the prompt, the message of the
    verdict and a new line, and it returns the objects filled from the first
    line that is accepted. *)
Theorem ask_for_loop_retries (tys : list slot_ty)
  (ls : list (list ascii)) (last : list ascii) (rest : list event)
  (out err : string) :
  let t := map default_value tys in
  forallb no_newline ls = true ->
  no_newline last = true ->
  forallb (fun l => negb (is_accepted (verdict_of condition t l))) ls
  = true ->
  verdict_of condition t last = Accepted ->
  ask_for_loop (S (List.length ls)) message condition condition_error
    parse_error tys
    (mk_world (mk_istream (lines_then (ls ++ [last]) rest) goodbit) out err)
  = Ret (filled t last)
      (accepted message rest
         (transcript message condition condition_error parse_error t ls out)
         err).
Proof.
  intros t. revert out.
  induction ls as [|l ls IH]; intros out Hls Hlast Hrej Hacc.
  - simpl lines_then. simpl List.length.
    apply ask_for_loop_accept.
    change (mk_world (mk_istream (map Ch last ++ Ch newline :: rest) goodbit)
              out err) with (with_line last rest out err).
    rewrite (ask_for_impl_verdict _ _ _ _ _ Hlast). fold t.
    now rewrite Hacc.
  - simpl in Hls, Hrej.
    apply andb_true_iff in Hls as [Hl Hls].
    apply andb_true_iff in Hrej as [Hr Hrej].
    apply negb_true_iff in Hr.
    simpl List.length. simpl app. simpl lines_then.
    change (mk_world
              (mk_istream
                 (map Ch l ++ Ch newline :: lines_then (ls ++ [last]) rest)
                 goodbit) out err)
      with (with_line l (lines_then (ls ++ [last]) rest) out err).
    rewrite (ask_for_loop_retry tys (S (List.length ls)) _
               (asked_again message
                  (message_of (verdict_of condition t l) condition_error
                     parse_error)
                  (lines_then (ls ++ [last]) rest) out err)
               (filled t l)).
    + unfold asked_again. rewrite (IH _ Hls Hlast Hrej Hacc). reflexivity.
    + rewrite (ask_for_impl_verdict _ _ _ _ _ Hl). fold t.
      now rewrite Hr.
Qed.

(** What the loop returns comes from an attempt that answered [true]. *)
Lemma ask_for_loop_returns (tys : list slot_ty)
  (fuel : nat) (w w1 : world) (t : list value) :
  ask_for_loop fuel message condition condition_error parse_error tys w
  = Ret t w1 ->
  exists w0,
    ask_for_impl message condition condition_error parse_error
      (map default_value tys) w0 = Ret (true, t) w1.
Proof.
  revert w. induction fuel as [|fuel IH]; intros w; [discriminate|].
  simpl.
  destruct (ask_for_impl _ _ _ _ _ w) as [[[] t1] w2|w2|] eqn:E;
    try discriminate.
  - intros [= <- <-]. now exists w.
  - apply IH.
Qed.

(** An attempt that answers [true] found no error in the condition check of
    the header; it kept the number of objects, printed the prompt and
    nothing else, and left the stream cleared. *)
Lemma ask_for_impl_true (t t1 : list value) (w w1 : world) :
  ask_for_impl message condition condition_error parse_error t w
  = Ret (true, t1) w1 ->
  errors_after t1 condition = false /\
  List.length t1 = List.length t /\
  cout w1 = (cout w ++ message)%string /\ cerr w1 = cerr w /\
  istate (cin w1) = goodbit.
Proof.
  unfold ask_for_impl.
  destruct (get_line_fill t (put_cout message w)) as [t2 w2|w2|] eqn:G;
    try discriminate.
  destruct (bad _); [discriminate|].
  destruct (Ios.fail _); [discriminate|].
  destruct (negb (eof _)); [discriminate|].
  destruct (errors_after t2 condition) eqn:Er; [discriminate|].
  intros [= <- <-]. split; [exact Er|].
  unfold get_line_fill in G.
  destruct (getline (cin (put_cout message w))) as [s ist].
  destruct (eof (istate ist)); [discriminate|].
  destruct (negb (good (istate ist))).
  { injection G as <- <-. now repeat split. }
  destruct (single_string_empty s t).
  { injection G as <- <-. now repeat split. }
  destruct (fill_line s t) as [[t' ss]|] eqn:F; [|discriminate].
  injection G as <- <-. repeat split.
  unfold fill_line in F.
  destruct (fill_slots t _) as [[t0 ss0]|] eqn:F0; [|discriminate].
  injection F as <- _. exact (fill_slots_length _ _ _ _ F0).
Qed.

(** X3.  The condition holds of what [ask_for<T>] returns. *)
Theorem ask_for_single_condition (fuel : nat) (T : slot_ty)
  (w w1 : world) (v : value) :
  ask_for_single fuel T message condition condition_error parse_error w
  = Ret v w1 ->
  condition v = true.
Proof.
  unfold ask_for_single.
  destruct (ask_for_loop _ _ _ _ _ _ w) as [t w2|w2|] eqn:E;
    try discriminate.
  intros [= <- <-].
  destruct (ask_for_loop_returns _ _ _ _ _ E) as [w0 H].
  destruct (ask_for_impl_true _ _ _ _ H) as (Er & L & _).
  destruct t as [|x [|y t]]; try discriminate L.
  unfold errors_after, condition_errors in Er. simpl in Er.
  now apply negb_false_iff in Er.
Qed.

(** X4.  Of what [ask_for<T1, T2, T...>] returns, the condition holds of the
    last object; the header keeps the result of the last check only. *)
Theorem ask_for_multiple_condition_last (fuel : nat) (T1 T2 : slot_ty)
  (T : list slot_ty) (w w1 : world) (t : list value) :
  ask_for_multiple fuel T1 T2 T message condition condition_error
    parse_error w = Ret t w1 ->
  exists front a, t = front ++ [a] /\ condition a = true.
Proof.
  unfold ask_for_multiple. intros E.
  destruct (ask_for_loop_returns _ _ _ _ _ E) as [w0 H].
  destruct (ask_for_impl_true _ _ _ _ H) as (Er & L & _).
  destruct (exists_last (l := t)) as (front & a & ->).
  { intros ->. simpl in L. discriminate. }
  exists front, a. split; [reflexivity|].
  rewrite errors_after_last in Er. unfold condition_errors in Er.
  now apply negb_false_iff in Er.
Qed.

End PromptLoop.

(** ** Extracting a whole token *)

Lemma digit_not_space (c : ascii) : is_digit c = true -> is_space c = false.
Proof.
  unfold is_digit, is_space. intros H.
  apply andb_true_iff in H as [H1 H2].
  apply Nat.leb_le in H1. apply Nat.leb_le in H2.
  apply orb_false_iff. split.
  - apply Nat.eqb_neq. lia.
  - apply andb_false_iff. right. apply Nat.leb_gt. lia.
Qed.

Lemma space_not_digit (c : ascii) : is_space c = true -> is_digit c = false.
Proof.
  intros H. destruct (is_digit c) eqn:D; [|reflexivity].
  apply digit_not_space in D. congruence.
Qed.

Lemma sign_not_space (c : ascii) : is_sign c = true -> is_space c = false.
Proof.
  unfold is_sign. intros H. apply orb_true_iff in H as [H|H];
    apply Ascii.eqb_eq in H; subst c; reflexivity.
Qed.

Create HintDb chars discriminated.
#[local] Hint Resolve digit_not_space space_not_digit sign_not_space : chars.

Lemma or_goodbit_l (st : iostate) : Ios.or goodbit st = st.
Proof. now destruct st. Qed.

(** The head of an [int] literal is a sign or a digit, hence no white
    space. *)
Lemma int_literal_head (tok : list ascii) :
  is_int_literal tok = true ->
  exists c r, tok = c :: r /\ is_space c = false.
Proof.
  unfold is_int_literal. destruct tok as [|c r]; simpl; [discriminate|].
  intros H. exists c, r. split; [reflexivity|].
  destruct (Ascii.eqb c "-") eqn:E1.
  { apply sign_not_space. unfold is_sign. now rewrite E1. }
  destruct (Ascii.eqb c "+") eqn:E2.
  { apply sign_not_space. unfold is_sign. now rewrite E2, orb_true_r. }
  simpl in H. apply andb_true_iff in H as [H _].
  apply andb_true_iff in H as [H _]. apply andb_true_iff in H as [H _].
  auto with chars.
Qed.

Lemma read_sign_literal (tok rest : list ascii) :
  is_int_literal tok = true ->
  read_sign (tok ++ rest)
  = (fst (read_sign tok), snd (read_sign tok) ++ rest).
Proof.
  unfold is_int_literal. destruct tok as [|c r]; simpl; [discriminate|].
  destruct (Ascii.eqb c "-"); [reflexivity|].
  destruct (Ascii.eqb c "+"); reflexivity.
Qed.

Lemma extract_int_literal (old : Z) (ws tok rest : list ascii) :
  forallb is_space ws = true ->
  is_int_literal tok = true ->
  (rest = [] \/ exists c r, rest = c :: r /\ is_digit c = false) ->
  extract_int old (mk_sstream (ws ++ tok ++ rest) goodbit)
  = (int_value tok, mk_sstream rest (mk_iostate (is_nil rest) false false)).
Proof.
  intros Hws Htok Hrest.
  destruct (int_literal_head _ Htok) as (c & r & Ec & Hc).
  unfold extract_int.
  replace (sentry (mk_sstream (ws ++ tok ++ rest) goodbit))
    with (true, mk_sstream (tok ++ rest) goodbit)
    by (rewrite Ec; simpl; symmetry; now apply sentry_spaces).
  cbn [sbuf sstate]. rewrite (read_sign_literal _ _ Htok).
  unfold is_int_literal, int_value in *.
  destruct (read_sign tok) as [neg ds]. cbn [fst snd].
  apply andb_true_iff in Htok as [Htok Hmax].
  apply andb_true_iff in Htok as [Htok Hmin].
  apply andb_true_iff in Htok as [Hne Hds].
  rewrite (span_all is_digit ds rest Hds Hrest).
  destruct ds as [|d ds]; [discriminate|].
  apply Z.leb_le in Hmin, Hmax.
  replace (_ <? INT_MIN) with false by (symmetry; apply Z.ltb_ge; lia).
  replace (INT_MAX <? _) with false by (symmetry; apply Z.ltb_ge; lia).
  rewrite or_goodbit_l. now destruct rest.
Qed.

Lemma integer_literal_head (lo hi : Z) (tok : list ascii) :
  is_integer_literal lo hi tok = true ->
  exists c r, tok = c :: r /\ is_space c = false.
Proof.
  unfold is_integer_literal. destruct tok as [|c r]; simpl; [discriminate|].
  intros H. exists c, r. split; [reflexivity|].
  destruct (Ascii.eqb c "-") eqn:E1.
  { apply sign_not_space. unfold is_sign. now rewrite E1. }
  destruct (Ascii.eqb c "+") eqn:E2.
  { apply sign_not_space. unfold is_sign. now rewrite E2, orb_true_r. }
  simpl in H. apply andb_true_iff in H as [H _].
  apply andb_true_iff in H as [H _]. apply andb_true_iff in H as [H _].
  auto with chars.
Qed.

Lemma read_sign_integer_literal (lo hi : Z) (tok rest : list ascii) :
  is_integer_literal lo hi tok = true ->
  read_sign (tok ++ rest)
  = (fst (read_sign tok), snd (read_sign tok) ++ rest).
Proof.
  unfold is_integer_literal. destruct tok as [|c r]; simpl; [discriminate|].
  destruct (Ascii.eqb c "-"); [reflexivity|].
  destruct (Ascii.eqb c "+"); reflexivity.
Qed.

Lemma extract_integer_literal (lo hi old : Z) (ws tok rest : list ascii) :
  forallb is_space ws = true ->
  is_integer_literal lo hi tok = true ->
  (rest = [] \/ exists c r, rest = c :: r /\ is_digit c = false) ->
  extract_integer lo hi old (mk_sstream (ws ++ tok ++ rest) goodbit)
  = (int_value tok, mk_sstream rest (mk_iostate (is_nil rest) false false)).
Proof.
  intros Hws Htok Hrest.
  destruct (integer_literal_head _ _ _ Htok) as (c & r & Ec & Hc).
  unfold extract_integer.
  replace (sentry (mk_sstream (ws ++ tok ++ rest) goodbit))
    with (true, mk_sstream (tok ++ rest) goodbit)
    by (rewrite Ec; simpl; symmetry; now apply sentry_spaces).
  cbn [sbuf sstate]. rewrite (read_sign_integer_literal _ _ _ _ Htok).
  unfold is_integer_literal, int_value in *.
  destruct (read_sign tok) as [neg ds]. cbn [fst snd].
  apply andb_true_iff in Htok as [Htok Hmax].
  apply andb_true_iff in Htok as [Htok Hmin].
  apply andb_true_iff in Htok as [Hne Hds].
  rewrite (span_all is_digit ds rest Hds Hrest).
  destruct ds as [|d ds]; [discriminate|].
  apply Z.leb_le in Hmin, Hmax.
  replace (_ <? lo) with false by (symmetry; apply Z.ltb_ge; lia).
  replace (hi <? _) with false by (symmetry; apply Z.ltb_ge; lia).
  rewrite or_goodbit_l. now destruct rest.
Qed.

Lemma extract_string_word (old : string) (ws tok rest : list ascii) :
  forallb is_space ws = true ->
  tok <> [] -> forallb non_space tok = true ->
  (rest = [] \/ exists c r, rest = c :: r /\ is_space c = true) ->
  extract_string old (mk_sstream (ws ++ tok ++ rest) goodbit)
  = (string_of_list_ascii tok,
     mk_sstream rest (mk_iostate (is_nil rest) false false)).
Proof.
  intros Hws Hne Htok Hrest.
  destruct tok as [|c r]; [congruence|].
  assert (Hc : is_space c = false).
  { simpl in Htok. apply andb_true_iff in Htok as [Hc _].
    unfold non_space in Hc. now destruct (is_space c). }
  unfold extract_string.
  replace (sentry (mk_sstream (ws ++ (c :: r) ++ rest) goodbit))
    with (true, mk_sstream ((c :: r) ++ rest) goodbit)
    by (simpl; symmetry; now apply sentry_spaces).
  cbn [sbuf sstate].
  change (fun c0 : ascii => negb (is_space c0)) with non_space.
  rewrite (span_all non_space (c :: r) rest Htok).
  - rewrite or_goodbit_l. now destruct rest.
  - destruct Hrest as [->|(x & y & -> & Hx)]; [now left|right].
    exists x, y. split; [reflexivity|]. unfold non_space. now rewrite Hx.
Qed.

Lemma extract_char_one (old c : ascii) (ws rest : list ascii) :
  forallb is_space ws = true -> is_space c = false ->
  extract_char old (mk_sstream (ws ++ c :: rest) goodbit)
  = (c, mk_sstream rest goodbit).
Proof.
  intros Hws Hc. unfold extract_char.
  now rewrite (sentry_spaces _ _ _ Hws Hc).
Qed.

(** On a good stream that holds white space only, every extraction runs into
    the end of the buffer and fails. *)
Lemma extract_scalar_all_space (old : sval) (l : list ascii) :
  forallb is_space l = true ->
  extract_scalar old (mk_sstream l goodbit)
  = (old, mk_sstream [] (mk_iostate true true false)).
Proof.
  intros H. destruct old; simpl.
  - unfold extract_int. now rewrite (sentry_all_space _ H).
  - unfold extract_string. now rewrite (sentry_all_space _ H).
  - unfold extract_char. now rewrite (sentry_all_space _ H).
  - unfold extract_integer. now rewrite (sentry_all_space _ H).
Qed.

(** A token of the element type is taken whole.  The stream stays good, or
    is at [eof] with nothing left. *)
Lemma extract_scalar_token (s : scalar) (ws tok rest : list ascii) :
  forallb is_space ws = true ->
  tok <> [] -> forallb non_space tok = true ->
  is_token s tok = true ->
  (rest = [] \/ exists c r, rest = c :: r /\ is_space c = true) ->
  exists v st,
    extract_scalar (default_scalar s) (mk_sstream (ws ++ tok ++ rest) goodbit)
    = (v, mk_sstream rest st) /\
    (st = goodbit \/ st = only_eof /\ rest = []).
Proof.
  intros Hws Hne Hns Htok Hrest.
  assert (Hst : forall r : list ascii,
             mk_iostate (is_nil r) false false = goodbit \/
             mk_iostate (is_nil r) false false = only_eof /\ r = []).
  { intros [|x y]; [right|left]; now split. }
  destruct s; simpl in *.
  - rewrite (extract_int_literal 0 ws tok rest Hws Htok).
    + eexists _, _. split; [reflexivity|apply Hst].
    + destruct Hrest as [->|(x & y & -> & Hx)]; [now left|right].
      exists x, y. split; [reflexivity|auto with chars].
  - rewrite (extract_string_word EmptyString ws tok rest Hws Hne Hns Hrest).
    eexists _, _. split; [reflexivity|apply Hst].
  - destruct tok as [|c [|d r]]; try discriminate.
    assert (Hc : is_space c = false).
    { simpl in Hns. unfold non_space in Hns. now destruct (is_space c). }
    simpl app. rewrite (extract_char_one zero c ws rest Hws Hc).
    eexists _, _. split; [reflexivity|now left].
  - rewrite (extract_integer_literal _ _ 0 ws tok rest Hws Htok).
    + eexists _, _. split; [reflexivity|apply Hst].
    + destruct Hrest as [->|(x & y & -> & Hx)]; [now left|right].
      exists x, y. split; [reflexivity|auto with chars].
Qed.

(** ** Fixed-size arrays *)

Lemma input_stream_cons (ss : sstream) (a : sval) (r : list sval) :
  snd (input_stream ss (a :: r))
  = snd (input_stream (snd (extract_scalar a ss)) r).
Proof.
  simpl. destruct (extract_scalar a ss) as [v ss1]. simpl.
  now destruct (input_stream ss1 r).
Qed.

Lemma fail_not_good (st : iostate) : Ios.fail st = true -> good st = false.
Proof.
  destruct st as [[] [] []]; simpl; intros H; try discriminate H; reflexivity.
Qed.

Lemma bad_not_good (st : iostate) : bad st = true -> good st = false.
Proof.
  destruct st as [[] [] []]; simpl; intros H; try discriminate H; reflexivity.
Qed.

(** An array of [n] elements cannot be filled from fewer than [n] tokens of
    its element type. *)
Lemma input_stream_short (s : scalar) (n : nat) (ss : sstream) :
  Ios.fail (sstate ss) = true \/
  ((0 < n)%nat /\ good (sstate ss) = false) \/
  (sstate ss = goodbit /\
   forallb (is_token s) (words (sbuf ss)) = true /\
   (List.length (words (sbuf ss)) < n)%nat) ->
  Ios.fail (sstate (snd (input_stream ss (repeat (default_scalar s) n))))
  = true.
Proof.
  revert ss. induction n as [|n IH]; intros ss H.
  - destruct H as [H|[[H _]|(_ & _ & H)]]; [exact H|lia|simpl in H; lia].
  - simpl repeat. rewrite input_stream_cons. apply IH.
    destruct H as [H|[[_ H]|(G & T & L)]].
    + left. apply extract_scalar_not_good. now apply fail_not_good.
    + left. now apply extract_scalar_not_good.
    + destruct ss as [buf st]. simpl in *. subst st.
      destruct (words buf) as [|tok more] eqn:W.
      * left. rewrite (extract_scalar_all_space _ _ (words_all_space _ W)).
        reflexivity.
      * destruct (words_cons_inv _ _ _ W)
          as (ws & rest & -> & Hws & Hne & Hns & Hrest & Hmore).
        simpl in T. apply andb_true_iff in T as [Ttok Tmore].
        destruct (extract_scalar_token s ws tok rest Hws Hne Hns Ttok Hrest)
          as (v & st & -> & [->|[-> ->]]); simpl.
        -- right. right. rewrite Hmore. repeat split; [exact Tmore|].
           simpl in L. lia.
        -- right. left. simpl in L. split; [lia|reflexivity].
Qed.

Lemma fill_line_array_short (s : scalar) (n : nat) (line : list ascii) :
  forallb (is_token s) (words line) = true ->
  (List.length (words line) < n)%nat ->
  exists t' ss,
    fill_line line [default_value (TArray s n)] = Some (t', ss) /\
    failbit (sstate ss) = true.
Proof.
  intros T L.
  destruct (fill_line_total line [default_value (TArray s n)])
    as (t' & ss & E & B & _).
  exists t', ss. split; [exact E|].
  assert (F : Ios.fail
                (sstate (snd (input_stream (mk_sstream line goodbit)
                                (repeat (default_scalar s) n)))) = true).
  { apply input_stream_short. right. right. now repeat split. }
  unfold fill_line in E. simpl in E.
  destruct (input_stream (mk_sstream line goodbit)
              (repeat (default_scalar s) n)) as [vs ss1].
  simpl in F. unfold Ios.fail in F.
  destruct ss1 as [buf [e f b]].
  destruct (Nat.eqb _ 0); injection E as <- <-; simpl in *;
    destruct f, b; simpl in *; congruence.
Qed.

(** X23.  For a request of one fixed-size array of [n] elements, a line that
    holds fewer than [n] tokens of the element type is a parse failure: the
    attempt answers [false], the parse-error message is printed after the
    prompt, and the loop goes on with a fresh attempt on the next line. *)
Theorem fixed_array_short_line_reprompts (s : scalar) (n : nat)
  (line : list ascii) (rest : list event) (out err : string)
  (message : string) (condition : value -> bool)
  (condition_error parse_error : string) (fuel : nat) :
  no_newline line = true ->
  forallb (is_token s) (words line) = true ->
  (List.length (words line) < n)%nat ->
  (exists t',
     ask_for_impl message condition condition_error parse_error
       [default_value (TArray s n)] (with_line line rest out err)
     = Ret (false, t') (asked_again message parse_error rest out err)) /\
  ask_for_loop (S fuel) message condition condition_error parse_error
    [TArray s n] (with_line line rest out err)
  = ask_for_loop fuel message condition condition_error parse_error
      [TArray s n] (asked_again message parse_error rest out err).
Proof.
  intros Hn T L.
  destruct (fill_line_array_short s n line T L) as (t' & ss & E & F).
  assert (H : ask_for_impl message condition condition_error parse_error
                [default_value (TArray s n)] (with_line line rest out err)
              = Ret (false, t')
                  (asked_again message parse_error rest out err)).
  { rewrite (ask_for_impl_line _ _ _ _ _ t' line ss); auto.
    now rewrite F. }
  split; [now exists t'|].
  now apply ask_for_loop_retry with (t := t').
Qed.

(** The example of the specification: arity 3 and the line ["1 2"]. *)
Lemma fixed_array_short_line_example :
  ask_for_loop 2 default_message any_value default_condition_error
    default_parse_error [TArray SInt 3]
    (with_line (list_ascii_of_string "1 2") [] EmptyString EmptyString)
  = ask_for_loop 1 default_message any_value default_condition_error
      default_parse_error [TArray SInt 3]
      (asked_again default_message default_parse_error [] EmptyString
         EmptyString).
Proof.
  apply (fixed_array_short_line_reprompts SInt 3
           (list_ascii_of_string "1 2"));
    [reflexivity|reflexivity|simpl; lia].
Defined.

(** ** Variable-length sequences *)

(** The loop takes the [int] literals in front and stops, failed, at a token
    that starts with something else; that token stays in the buffer. *)
Lemma vector_loop_literals (pre : list ascii) (c : ascii)
  (junk : list ascii) (vector : list sval) (fuel : nat) :
  forallb is_int_literal (words pre) = true ->
  is_space c = false -> is_digit c = false -> is_sign c = false ->
  (List.length (words pre) < fuel)%nat ->
  vector_loop fuel SInt (mk_sstream (pre ++ c :: junk) goodbit) vector
  = Some (vector ++ int_values (words pre),
          mk_sstream (c :: junk) only_fail).
Proof.
  remember (words pre) as wl eqn:W. revert pre W vector fuel.
  induction wl as [|tok more IH]; intros pre W vector fuel T Hsp Hd Hsg L.
  - destruct fuel as [|fuel]; [simpl in L; lia|].
    symmetry in W. apply words_all_space in W.
    simpl. unfold extract_int. rewrite (sentry_spaces _ _ _ W Hsp).
    unfold is_sign in Hsg. apply orb_false_iff in Hsg as [S1 S2].
    simpl. rewrite S1, S2. simpl. rewrite Hd. simpl.
    now rewrite app_nil_r.
  - destruct fuel as [|fuel]; [simpl in L; lia|].
    symmetry in W.
    destruct (words_cons_inv _ _ _ W)
      as (ws & rest & -> & Hws & Hne & Hns & Hrest & Hmore).
    simpl in T. apply andb_true_iff in T as [Ttok Tmore].
    cbn [vector_loop default_scalar extract_scalar].
    rewrite <- !app_assoc.
    rewrite (extract_int_literal 0 ws tok (rest ++ c :: junk) Hws Ttok).
    + replace (is_nil (rest ++ c :: junk)) with false
        by (now destruct rest).
      cbn [sstate Ios.fail failbit badbit orb].
      change (mk_iostate false false false) with goodbit.
      rewrite (IH rest (eq_sym Hmore) (vector ++ [VInt (int_value tok)])
                 fuel Tmore Hsp Hd Hsg) by (simpl in L; lia).
      simpl. now rewrite <- app_assoc.
    + right. destruct Hrest as [->|(x & y & -> & Hx)].
      * now exists c, junk.
      * exists x, (y ++ c :: junk). split; [reflexivity|].
        auto with chars.
Qed.

Lemma fill_line_vector_junk (pre : list ascii) (c : ascii)
  (junk : list ascii) :
  forallb is_int_literal (words pre) = true ->
  is_space c = false -> is_digit c = false -> is_sign c = false ->
  fill_line (pre ++ c :: junk) [default_value (TVector SInt)]
  = Some ([Vector SInt (int_values (words pre))],
          mk_sstream (c :: junk) goodbit).
Proof.
  intros T Hsp Hd Hsg. unfold fill_line.
  cbn [default_value fill_slots extract]. unfold extract_vector.
  cbn [sbuf].
  rewrite (vector_loop_literals pre c junk [] _ T Hsp Hd Hsg).
  - reflexivity.
  - pose proof (words_length pre). rewrite length_app. lia.
Qed.

(** For a request of one sequence of [int], a line of [int] literals
    followed by a token that starts with a character that is no digit, no
    sign and no white space: the sequence is filled with the literals and
    [failbit] is cleared, so this is no parse failure; but the token is
    still in the buffer, so the attempt is turned down with the
    excess-input message and answers [false]. *)
Theorem vector_trailing_token_is_excess_input (pre : list ascii) (c : ascii)
  (junk : list ascii) (rest : list event) (out err : string)
  (message : string) (condition : value -> bool)
  (condition_error parse_error : string) :
  no_newline (pre ++ c :: junk) = true ->
  forallb is_int_literal (words pre) = true ->
  is_space c = false -> is_digit c = false -> is_sign c = false ->
  fill_line (pre ++ c :: junk) [default_value (TVector SInt)]
  = Some ([Vector SInt (int_values (words pre))],
          mk_sstream (c :: junk) goodbit) /\
  ask_for_impl message condition condition_error parse_error
    [default_value (TVector SInt)]
    (with_line (pre ++ c :: junk) rest out err)
  = Ret (false, [Vector SInt (int_values (words pre))])
      (asked_again message "Error: excess input" rest out err).
Proof.
  intros Hn T Hsp Hd Hsg.
  pose proof (fill_line_vector_junk pre c junk T Hsp Hd Hsg) as E.
  split; [exact E|].
  now rewrite (ask_for_impl_line message condition condition_error
                 parse_error [default_value (TVector SInt)] _ _ _ rest out
                 err Hn eq_refl E).
Qed.

Lemma vector_trailing_token_example :
  ask_for_impl default_message any_value default_condition_error
    default_parse_error [default_value (TVector SInt)]
    (with_line (list_ascii_of_string "1 2 3 abc") [] EmptyString EmptyString)
  = Ret (false, [Vector SInt [VInt 1; VInt 2; VInt 3]])
      (asked_again default_message "Error: excess input" [] EmptyString
         EmptyString).
Proof.
  apply (vector_trailing_token_is_excess_input
           (list_ascii_of_string "1 2 3 ") "a" (list_ascii_of_string "bc"));
    reflexivity.
Defined.

(** The line ["1 2 3 abc"] is not accepted: the attempt answers [false]
    after the excess-input message, and with nothing else on the input the
    call leaves by [Eof_exception] instead of returning [[1,2,3]]. *)
Lemma vector_trailing_token_rejected :
  ask_for_impl "? " any_value default_condition_error default_parse_error
    [default_value (TVector SInt)]
    (console ("1 2 3 abc" ++ nl))
  = Ret (false, [Vector SInt [VInt 1; VInt 2; VInt 3]])
      (mk_world (mk_istream [] goodbit)
         ("? " ++ "Error: excess input" ++ nl) EmptyString) /\
  ask_for_single (enough (console ("1 2 3 abc" ++ nl))) (TVector SInt) "? "
    any_value default_condition_error default_parse_error
    (console ("1 2 3 abc" ++ nl))
  = Eof_exception
      (mk_world (mk_istream [] (mk_iostate true true false))
         ("? " ++ "Error: excess input" ++ nl ++ "? ") EmptyString).
Proof. split; reflexivity. Qed.

(** ** Excess input *)

Lemma single_string_empty_fails (line : list ascii) (t t' : list value)
  (ss : sstream) :
  single_string_empty line t = true ->
  fill_line line t = Some (t', ss) ->
  failbit (sstate ss) = true.
Proof.
  destruct t as [|[[z|x|c|k z]|vs|s vs] [|b t]]; try discriminate.
  destruct line; [|discriminate]. intros _.
  unfold fill_line. simpl. now intros [= <- <-].
Qed.

(** The line ["5 "] for one [int]: the slot parses, what is left of the line
    is one space, and the attempt is turned down as excess input. *)
Lemma trailing_space_is_excess_input :
  fill_line (list_ascii_of_string "5 ") [default_value (TScalar SInt)]
  = Some ([Scalar (VInt 5)], mk_sstream [" "%char] goodbit) /\
  forallb is_space [" "%char] = true /\
  ask_for_impl "? " any_value default_condition_error default_parse_error
    [default_value (TScalar SInt)] (console ("5 " ++ nl))
  = Ret (false, [Scalar (VInt 5)])
      (mk_world (mk_istream [] goodbit)
         ("? " ++ "Error: excess input" ++ nl) EmptyString).
Proof. repeat split. Qed.

(** C3, as the header has it.  For an attempt whose slots all parse, the
    excess-input message is printed (and the attempt answers [false])
    exactly when a character of the line, white space included, is left in
    the buffer after the fill; a line that was used up goes on to the
    condition check. *)
Theorem excess_input_iff_buffer_not_empty (message : string)
  (condition : value -> bool) (condition_error parse_error : string)
  (t t' : list value) (line : list ascii) (ss : sstream)
  (rest : list event) (out err : string) :
  no_newline line = true ->
  fill_line line t = Some (t', ss) ->
  Ios.fail (sstate ss) = false ->
  ask_for_impl message condition condition_error parse_error t
    (with_line line rest out err)
  = if negb (is_nil (sbuf ss)) then
      Ret (false, t') (asked_again message "Error: excess input" rest out err)
    else if errors_after t' condition then
      Ret (false, t') (asked_again message condition_error rest out err)
    else Ret (true, t') (accepted message rest out err).
Proof.
  intros Hn E F.
  assert (Ff : failbit (sstate ss) = false).
  { unfold Ios.fail in F. now apply orb_false_iff in F. }
  destruct (single_string_empty line t) eqn:S.
  - pose proof (single_string_empty_fails _ _ _ _ S E). congruence.
  - rewrite (ask_for_impl_line _ _ _ _ _ _ _ _ _ _ _ Hn S E).
    now rewrite Ff.
Qed.

Lemma excess_input_example :
  ask_for_impl default_message any_value default_condition_error
    default_parse_error [default_value (TScalar SInt)]
    (with_line (list_ascii_of_string "5 x") [] EmptyString EmptyString)
  = Ret (false, [Scalar (VInt 5)])
      (asked_again default_message "Error: excess input" [] EmptyString
         EmptyString).
Proof.
  apply (excess_input_iff_buffer_not_empty default_message any_value
           default_condition_error default_parse_error
           [default_value (TScalar SInt)] [Scalar (VInt 5)]
           (list_ascii_of_string "5 x")
           (mk_sstream (list_ascii_of_string " x") goodbit));
    reflexivity.
Defined.

(** ** One [std::string] *)

(** C5.  For a request of one [std::string], an empty line is a successful
    fill that leaves the string empty: [get_line_fill] returns with [eofbit]
    alone set on [std::cin] (no [failbit], so no parse failure; [eofbit], so
    no excess input), and when the condition accepts the empty string the
    call returns it from this attempt, with nothing printed but the
    prompt. *)
Theorem single_string_empty_line_returns_empty (message : string)
  (condition : value -> bool) (condition_error parse_error : string)
  (rest : list event) (out err : string) (fuel : nat) :
  condition (Scalar (VStr EmptyString)) = true ->
  get_line_fill [default_value (TScalar SStr)] (with_line [] rest out err)
  = Ret [Scalar (VStr EmptyString)]
      (mk_world (mk_istream rest only_eof) out err) /\
  ask_for_single (S fuel) (TScalar SStr) message condition condition_error
    parse_error (with_line [] rest out err)
  = Ret (Scalar (VStr EmptyString)) (accepted message rest out err).
Proof.
  intros H. split; [reflexivity|].
  unfold ask_for_single. simpl.
  unfold ask_for_impl, get_line_fill. simpl.
  unfold errors_after, condition_errors. simpl. now rewrite H.
Qed.

Lemma single_string_empty_line_example :
  ask_for_single 1 (TScalar SStr) default_message any_value
    default_condition_error default_parse_error
    (with_line [] [] EmptyString EmptyString)
  = Ret (Scalar (VStr EmptyString))
      (accepted default_message [] EmptyString EmptyString).
Proof.
  apply (single_string_empty_line_returns_empty default_message any_value
           default_condition_error default_parse_error [] EmptyString
           EmptyString 0).
  reflexivity.
Defined.

Lemma words_nil_rest (l : list ascii) (tok : list ascii)
  (more : list (list ascii)) :
  words l = tok :: more -> is_nil l = false.
Proof. destruct l; [discriminate|reflexivity]. Qed.

(** C9.  For a request of one [std::string], the slot gets the first token
    of the line at most: a line with two or more tokens leaves the rest in
    the buffer, so the attempt is turned down with the excess-input message,
    answers [false], and the loop goes on with a fresh attempt. *)
Theorem single_string_two_words_is_excess_input (line : list ascii)
  (rest : list event) (out err : string) (message : string)
  (condition : value -> bool) (condition_error parse_error : string)
  (fuel : nat) :
  no_newline line = true ->
  (2 <= List.length (words line))%nat ->
  ask_for_impl message condition condition_error parse_error
    [default_value (TScalar SStr)] (with_line line rest out err)
  = Ret (false, [Scalar (VStr (string_of_list_ascii (hd [] (words line))))])
      (asked_again message "Error: excess input" rest out err) /\
  ask_for_loop (S fuel) message condition condition_error parse_error
    [TScalar SStr] (with_line line rest out err)
  = ask_for_loop fuel message condition condition_error parse_error
      [TScalar SStr] (asked_again message "Error: excess input" rest out err).
Proof.
  intros Hn L.
  destruct (words line) as [|tok [|tok2 more]] eqn:W;
    [simpl in L; lia|simpl in L; lia|clear L].
  destruct (words_cons_inv _ _ _ W)
    as (ws & rest0 & El & Hws & Hne & Hns & Hrest & Hmore).
  pose proof (words_nil_rest _ _ _ Hmore) as Hr0.
  pose proof (words_nil_rest _ _ _ W) as Hl.
  assert (E : fill_line line [default_value (TScalar SStr)]
              = Some ([Scalar (VStr (string_of_list_ascii tok))],
                      mk_sstream rest0 goodbit)).
  { unfold fill_line. cbn [default_value default_scalar fill_slots extract
                             extract_scalar].
    rewrite El.
    rewrite (extract_string_word EmptyString ws tok rest0 Hws Hne Hns Hrest).
    rewrite Hr0. unfold in_avail. cbn [sbuf].
    destruct rest0; [discriminate|reflexivity]. }
  assert (S : single_string_empty line [default_value (TScalar SStr)]
              = false).
  { destruct line; [discriminate|reflexivity]. }
  assert (H : ask_for_impl message condition condition_error parse_error
                [default_value (TScalar SStr)] (with_line line rest out err)
              = Ret (false, [Scalar (VStr (string_of_list_ascii tok))])
                  (asked_again message "Error: excess input" rest out err)).
  { rewrite (ask_for_impl_line _ _ _ _ _ _ _ _ _ _ _ Hn S E).
    cbn [sstate sbuf failbit goodbit]. now rewrite Hr0. }
  split; [exact H|].
  exact (ask_for_loop_retry message condition condition_error parse_error
           [TScalar SStr] fuel _ _ _ H).
Qed.

Lemma single_string_two_words_example :
  ask_for_impl default_message any_value default_condition_error
    default_parse_error [default_value (TScalar SStr)]
    (with_line (list_ascii_of_string "hello world") [] EmptyString
       EmptyString)
  = Ret (false, [Scalar (VStr "hello")])
      (asked_again default_message "Error: excess input" [] EmptyString
         EmptyString).
Proof.
  apply (single_string_two_words_is_excess_input
           (list_ascii_of_string "hello world") [] EmptyString EmptyString
           default_message any_value default_condition_error
           default_parse_error 0);
    [reflexivity|simpl; lia].
Defined.

(** C10.  For a request of one [std::string], a line that is not empty and
    holds white space only does not take the empty-line shortcut: the
    extraction finds no token, so the attempt is a parse failure (the
    parse-error message, the answer [false], a fresh attempt). *)
Theorem single_string_blank_line_is_parse_failure (line : list ascii)
  (rest : list event) (out err : string) (message : string)
  (condition : value -> bool) (condition_error parse_error : string)
  (fuel : nat) :
  no_newline line = true ->
  is_nil line = false ->
  forallb is_space line = true ->
  single_string_empty line [default_value (TScalar SStr)] = false /\
  ask_for_impl message condition condition_error parse_error
    [default_value (TScalar SStr)] (with_line line rest out err)
  = Ret (false, [Scalar (VStr EmptyString)])
      (asked_again message parse_error rest out err) /\
  ask_for_loop (S fuel) message condition condition_error parse_error
    [TScalar SStr] (with_line line rest out err)
  = ask_for_loop fuel message condition condition_error parse_error
      [TScalar SStr] (asked_again message parse_error rest out err).
Proof.
  intros Hn Hne Hsp.
  assert (S : single_string_empty line [default_value (TScalar SStr)]
              = false).
  { destruct line; [discriminate|reflexivity]. }
  assert (E : fill_line line [default_value (TScalar SStr)]
              = Some ([Scalar (VStr EmptyString)],
                      mk_sstream [] (mk_iostate true true false))).
  { unfold fill_line. cbn [default_value default_scalar fill_slots extract].
    now rewrite (extract_scalar_all_space _ _ Hsp). }
  assert (H : ask_for_impl message condition condition_error parse_error
                [default_value (TScalar SStr)] (with_line line rest out err)
              = Ret (false, [Scalar (VStr EmptyString)])
                  (asked_again message parse_error rest out err)).
  { now rewrite (ask_for_impl_line _ _ _ _ _ _ _ _ _ _ _ Hn S E). }
  repeat split; [exact S|exact H|].
  exact (ask_for_loop_retry message condition condition_error parse_error
           [TScalar SStr] fuel _ _ _ H).
Qed.

Lemma single_string_blank_line_example :
  ask_for_impl default_message any_value default_condition_error
    default_parse_error [default_value (TScalar SStr)]
    (with_line (list_ascii_of_string "   ") [] EmptyString EmptyString)
  = Ret (false, [Scalar (VStr EmptyString)])
      (asked_again default_message default_parse_error [] EmptyString
         EmptyString).
Proof.
  apply (single_string_blank_line_is_parse_failure
           (list_ascii_of_string "   ") [] EmptyString EmptyString
           default_message any_value default_condition_error
           default_parse_error 0);
    reflexivity.
Defined.

(** ** A stream gone bad *)

(** C8.  When [std::getline] leaves the stream bad and not at [eof], the
    attempt writes the fixed diagnostic to [std::cerr], clears the state of
    the stream and answers [false] without touching the objects; nothing is
    thrown, and the loop goes on with a fresh attempt. *)
Theorem bad_stream_is_reported_and_retried (message : string)
  (condition : value -> bool) (condition_error parse_error : string)
  (tys : list slot_ty) (w : world) (fuel : nat) :
  bad (istate (snd (getline (cin w)))) = true ->
  eof (istate (snd (getline (cin w)))) = false ->
  let w' := mk_world (mk_istream (ibuf (snd (getline (cin w)))) goodbit)
              (cout w ++ message)
              (cerr w ++ "Cannot read from stream" ++ nl) in
  ask_for_impl message condition condition_error parse_error
    (map default_value tys) w
  = Ret (false, map default_value tys) w' /\
  ask_for_loop (S fuel) message condition condition_error parse_error tys w
  = ask_for_loop fuel message condition condition_error parse_error tys w'.
Proof.
  intros B E w'.
  assert (H : ask_for_impl message condition condition_error parse_error
                (map default_value tys) w
              = Ret (false, map default_value tys) w').
  { unfold ask_for_impl, get_line_fill. cbn [put_cout cin].
    destruct (getline (cin w)) as [s ist]. cbn [snd] in *.
    rewrite E.
    rewrite (bad_not_good _ B).
    cbn [negb set_cin cin]. now rewrite B. }
  split; [exact H|]. exact (ask_for_loop_retry _ _ _ _ _ _ _ _ _ H).
Qed.

Lemma bad_stream_example :
  ask_for_impl "? " any_value default_condition_error default_parse_error
    [default_value (TScalar SInt)] faulty_console
  = Ret (false, [default_value (TScalar SInt)])
      (mk_world (mk_istream (map Ch (list_ascii_of_string ("7" ++ nl)))
                   goodbit)
         "? " ("Cannot read from stream" ++ nl)).
Proof.
  apply (bad_stream_is_reported_and_retried "? " any_value
           default_condition_error default_parse_error [TScalar SInt]
           faulty_console 0);
    reflexivity.
Defined.

(** ** The condition on several objects *)

(** C1 fails on the header.  For [ask_for<int, std::string>] with a
    condition that wants a positive [int], the line ["-5 hello"] is accepted
    on the first attempt (nothing but the prompt is printed) and [-5] is
    returned, although the condition does not hold of it: every
    [errors = condition_errors(t, condition)] overwrites the one before. *)
Theorem tuple_first_slot_not_checked :
  positive_int (Scalar (VInt (-5))) = false /\
  errors_after [Scalar (VInt (-5)); Scalar (VStr "hello")] positive_int
  = false /\
  ask_for_multiple 1 (TScalar SInt) (TScalar SStr) [] "? " positive_int
    default_condition_error default_parse_error
    (console ("-5 hello" ++ nl))
  = Ret [Scalar (VInt (-5)); Scalar (VStr "hello")]
      (mk_world (mk_istream [] goodbit) "? " EmptyString).
Proof. repeat split. Qed.

(** C6 fails on the header for the same reason.  After one parse failure the
    loop asks again, and from the line ["-5 5"] it returns [-5] and [5] to a
    caller whose condition wants positive numbers. *)
Theorem loop_returns_unvalidated_slot :
  positive_int (Scalar (VInt (-5))) = false /\
  ask_for_multiple 2 (TScalar SInt) (TScalar SInt) [] "? " positive_int
    default_condition_error default_parse_error
    (console ("abc" ++ nl ++ "-5 5" ++ nl))
  = Ret [Scalar (VInt (-5)); Scalar (VInt 5)]
      (mk_world (mk_istream [] goodbit)
         ("? " ++ default_parse_error ++ nl ++ "? ") EmptyString).
Proof. repeat split. Qed.

(** ** End of input *)

Lemma read_line_unterminated (line : list ascii) :
  no_newline line = true ->
  read_line (map Ch line) = (line, [], AtEof).
Proof.
  induction line as [|c l IH]; simpl; [reflexivity|].
  intros H. apply andb_true_iff in H as [Hc H].
  apply negb_true_iff in Hc. now rewrite Hc, (IH H).
Qed.

(** A terminated line is read and used, whatever follows it. *)
Lemma get_line_fill_terminated (t : list value) (line : list ascii)
  (rest : list event) (out err : string) :
  no_newline line = true ->
  exists t' st,
    get_line_fill t (with_line line rest out err)
    = Ret t' (mk_world (mk_istream rest st) out err).
Proof.
  intros Hn. destruct (single_string_empty line t) eqn:S.
  - unfold get_line_fill, with_line. simpl cin.
    rewrite (getline_with_line _ _ Hn). simpl. rewrite S.
    eexists _, _. reflexivity.
  - destruct (fill_line_total line t) as (t' & ss & E & _).
    rewrite (get_line_fill_line _ _ _ _ _ _ _ Hn S E). eauto.
Qed.

(** The last line of the input, when no terminator follows it, is read and
    thrown away: [get_line_fill] leaves by [Eof_exception], whether the line
    is empty or not. *)
Lemma get_line_fill_unterminated (t : list value) (line : list ascii)
  (out err : string) :
  no_newline line = true ->
  get_line_fill t (mk_world (mk_istream (map Ch line) goodbit) out err)
  = Eof_exception
      (mk_world (mk_istream [] (mk_iostate true (is_nil line) false)) out err).
Proof.
  intros Hn. unfold get_line_fill. simpl cin. unfold getline. simpl good.
  cbv iota. cbn [ibuf]. rewrite (read_line_unterminated _ Hn).
  destruct line; reflexivity.
Qed.

(** C4 fails on the header.  With ["42"] and then the end of the input (no
    line terminator), [std::getline] delivers the line and sets [eofbit];
    [get_line_fill] tests [is.eof()] and throws, so [ask_for<int>] leaves by
    [Eof_exception] instead of filling from the line.  The same line with
    its terminator is used, and 42 is returned. *)
Theorem unterminated_last_line_throws :
  getline (stdin_of "42")
  = (list_ascii_of_string "42", mk_istream [] only_eof) /\
  ask_for_single (enough (console "42")) (TScalar SInt) default_message
    any_value default_condition_error default_parse_error (console "42")
  = Eof_exception
      (mk_world (mk_istream [] only_eof) default_message EmptyString) /\
  ask_for_single (enough (console ("42" ++ nl))) (TScalar SInt)
    default_message any_value default_condition_error default_parse_error
    (console ("42" ++ nl))
  = Ret (Scalar (VInt 42))
      (mk_world (mk_istream [] goodbit) default_message EmptyString).
Proof. repeat split. Qed.

(** * Further properties of the header *)

(** ** Tokens taken in order *)

Lemma space_head_not_word (rest : list ascii) :
  (rest = [] \/ exists c r, rest = c :: r /\ is_space c = true) ->
  rest = [] \/ exists c r, rest = c :: r /\ non_space c = false.
Proof.
  intros [->|(x & y & -> & Hx)]; [now left|right].
  exists x, y. split; [reflexivity|]. unfold non_space. now rewrite Hx.
Qed.

Lemma extract_scalar_token_value (s : scalar) (ws tok rest : list ascii) :
  forallb is_space ws = true ->
  tok <> [] -> forallb non_space tok = true ->
  is_token s tok = true ->
  (rest = [] \/ exists c r, rest = c :: r /\ is_space c = true) ->
  extract_scalar (default_scalar s) (mk_sstream (ws ++ tok ++ rest) goodbit)
  = (token_value s tok, mk_sstream rest (state_after s rest)).
Proof.
  intros Hws Hne Hns Htok Hrest. destruct s; simpl in *.
  - rewrite (extract_int_literal 0 ws tok rest Hws Htok); [reflexivity|].
    destruct Hrest as [->|(x & y & -> & Hx)]; [now left|right].
    exists x, y. split; [reflexivity|auto with chars].
  - now rewrite (extract_string_word EmptyString ws tok rest Hws Hne Hns
                   Hrest).
  - destruct tok as [|c [|d r]]; try discriminate.
    assert (Hc : is_space c = false).
    { simpl in Hns. unfold non_space in Hns. now destruct (is_space c). }
    simpl app. now rewrite (extract_char_one zero c ws rest Hws Hc).
  - rewrite (extract_integer_literal _ _ 0 ws tok rest Hws Htok);
      [reflexivity|].
    destruct Hrest as [->|(x & y & -> & Hx)]; [now left|right].
    exists x, y. split; [reflexivity|auto with chars].
Qed.

Lemma drop_words_one (ws tok rest : list ascii) :
  forallb is_space ws = true ->
  tok <> [] -> forallb non_space tok = true ->
  (rest = [] \/ exists c r, rest = c :: r /\ is_space c = true) ->
  snd (span non_space (skip_ws (ws ++ tok ++ rest))) = rest.
Proof.
  intros Hws Hne Hns Hrest. rewrite (skip_ws_spaces _ _ Hws).
  destruct tok as [|c r]; [congruence|].
  assert (Hc : is_space c = false).
  { simpl in Hns. apply andb_true_iff in Hns as [Hc _].
    unfold non_space in Hc. now destruct (is_space c). }
  replace (skip_ws ((c :: r) ++ rest)) with ((c :: r) ++ rest)
    by (simpl; now rewrite Hc).
  now rewrite (span_all non_space (c :: r) rest Hns
                 (space_head_not_word _ Hrest)).
Qed.

Lemma state_after_cases (s : scalar) (rest : list ascii) :
  state_after s rest = goodbit \/ state_after s rest = only_eof /\ rest = [].
Proof. destruct s, rest; simpl; auto. Qed.

Lemma tokens_match_length (tys : list scalar) (toks : list (list ascii)) :
  tokens_match tys toks = true -> List.length toks = List.length tys.
Proof.
  revert toks. induction tys as [|s tys IH]; intros [|tok toks]; simpl;
    try discriminate; [reflexivity|].
  intros H. apply andb_true_iff in H as [_ H]. now rewrite (IH _ H).
Qed.

(** Scalars are filled from the tokens of the line in order, each from one
    token; what is left of the line is what follows these tokens. *)
Lemma input_stream_tokens (tys : list scalar) :
  forall (toks more : list (list ascii)) (line : list ascii) (st : iostate),
    st = goodbit \/ st = only_eof /\ line = [] ->
    words line = toks ++ more ->
    tokens_match tys toks = true ->
    exists st',
      input_stream (mk_sstream line st) (map default_scalar tys)
      = (token_values tys toks,
         mk_sstream (drop_words (List.length tys) line) st') /\
      failbit st' = false /\ badbit st' = false /\
      words (drop_words (List.length tys) line) = more.
Proof.
  induction tys as [|s tys IH]; intros toks more line st Hst W M.
  - destruct toks; [|discriminate]. exists st. simpl.
    repeat split; try exact W; destruct Hst as [->|[-> _]]; reflexivity.
  - destruct toks as [|tok toks]; [discriminate|].
    simpl in M. apply andb_true_iff in M as [Mtok M].
    destruct Hst as [->|[_ ->]]; [|discriminate].
    destruct (words_cons_inv _ _ _ W)
      as (ws & rest & -> & Hws & Hne & Hns & Hrest & Hmore).
    destruct (IH toks more rest (state_after s rest)
                (state_after_cases s rest) Hmore M)
      as (st' & E & F & B & W').
    exists st'. cbn [map input_stream List.length drop_words token_values].
    rewrite (extract_scalar_token_value s ws tok rest Hws Hne Hns Mtok Hrest).
    rewrite E, (drop_words_one ws tok rest Hws Hne Hns Hrest).
    now repeat split.
Qed.

Lemma fill_slots_scalars (olds : list sval) (ss : sstream) :
  fill_slots (map Scalar olds) ss
  = Some (map Scalar (fst (input_stream ss olds)),
          snd (input_stream ss olds)).
Proof.
  revert ss. induction olds as [|a r IH]; intros ss; [reflexivity|].
  cbn [map fill_slots extract input_stream].
  destruct (extract_scalar a ss) as [v ss1]. rewrite IH.
  now destruct (input_stream ss1 r).
Qed.

Lemma scalar_slots_map (tys : list scalar) :
  scalar_slots tys = map Scalar (map default_scalar tys).
Proof. unfold scalar_slots. now rewrite !map_map. Qed.

Lemma single_string_empty_words (line : list ascii) (t : list value) :
  words line <> [] -> single_string_empty line t = false.
Proof.
  intros H. destruct line; [now contradiction H|].
  destruct t as [|[[z|x|c|k z]|vs|s vs] [|b t]]; reflexivity.
Qed.

Lemma fill_line_scalars (tys : list scalar) (toks more : list (list ascii))
  (line : list ascii) :
  words line = toks ++ more ->
  tokens_match tys toks = true ->
  exists st,
    fill_line line (scalar_slots tys)
    = Some (map Scalar (token_values tys toks),
            mk_sstream (drop_words (List.length tys) line) st) /\
    failbit st = false /\
    words (drop_words (List.length tys) line) = more.
Proof.
  intros W M.
  destruct (input_stream_tokens tys toks more line goodbit (or_introl eq_refl)
              W M) as (st' & E & F & B & W').
  unfold fill_line. rewrite scalar_slots_map, fill_slots_scalars, E.
  cbn [fst snd in_avail sbuf sstate].
  destruct (Nat.eqb _ 0); eexists; (split; [reflexivity|]); simpl;
    rewrite ?F; now split.
Qed.

(** An attempt for scalars on a line that starts with a token for each. *)
Lemma ask_for_impl_scalars (message : string) (condition : value -> bool)
  (condition_error parse_error : string) (tys : list scalar)
  (toks more : list (list ascii)) (line : list ascii) (rest : list event)
  (out err : string) :
  no_newline line = true ->
  words line = toks ++ more ->
  tokens_match tys toks = true ->
  ask_for_impl message condition condition_error parse_error
    (scalar_slots tys) (with_line line rest out err)
  = if negb (is_nil (drop_words (List.length tys) line)) then
      Ret (false, map Scalar (token_values tys toks))
        (asked_again message "Error: excess input" rest out err)
    else if errors_after (map Scalar (token_values tys toks)) condition then
      Ret (false, map Scalar (token_values tys toks))
        (asked_again message condition_error rest out err)
    else
      Ret (true, map Scalar (token_values tys toks))
        (accepted message rest out err).
Proof.
  intros Hn W M.
  destruct (fill_line_scalars tys toks more line W M) as (st & E & F & _).
  assert (S : single_string_empty line (scalar_slots tys) = false).
  { destruct toks as [|tok toks].
    - destruct tys; [|discriminate]. now destruct line.
    - apply single_string_empty_words. rewrite W. discriminate. }
  rewrite (ask_for_impl_line message condition condition_error parse_error
             _ _ _ _ rest out err Hn S E).
  cbn [sstate sbuf]. now rewrite F.
Qed.

Lemma drop_words_suffix (n : nat) (l : list ascii) :
  exists pre, l = pre ++ drop_words n l.
Proof.
  revert l. induction n as [|n IH]; intros l; [now exists []|].
  simpl. destruct (skip_ws_decompose l) as (ws & _ & E).
  pose proof (span_app non_space (skip_ws l)) as A.
  destruct (IH (snd (span non_space (skip_ws l)))) as [pre P].
  exists (ws ++ fst (span non_space (skip_ws l)) ++ pre).
  rewrite <- !app_assoc, <- P, <- A. exact E.
Qed.

Lemma ends_in_space_suffix (pre r : list ascii) :
  r <> [] -> forallb is_space r = true -> ends_in_space (pre ++ r) = true.
Proof.
  intros Hne Hsp. destruct (exists_last Hne) as (r0 & x & ->).
  rewrite forallb_app in Hsp. apply andb_true_iff in Hsp as [_ Hx].
  simpl in Hx. rewrite andb_true_r in Hx.
  unfold ends_in_space. now rewrite app_assoc, rev_app_distr.
Qed.

(** Behind the last token of a line that does not end in white space there
    is nothing left. *)
Lemma drop_words_nil (n : nat) (line : list ascii) :
  words (drop_words n line) = [] ->
  ends_in_space line = false ->
  drop_words n line = [].
Proof.
  intros W E. destruct (drop_words_suffix n line) as [pre P].
  destruct (drop_words n line) as [|c r] eqn:D; [reflexivity|].
  rewrite P, ends_in_space_suffix in E; try discriminate.
  now apply words_all_space.
Qed.

(** X5.  [ask_for<T>] for a scalar [T], on a line that holds exactly one
    token, of type [T], and does not end in white space (white space in
    front of the token is fine): when the condition holds of the token's
    value, that value is returned from the first attempt and nothing is
    printed but the prompt. *)
Theorem single_value_first_attempt (s : scalar) (tok line : list ascii)
  (rest : list event) (out err : string) (message : string)
  (condition : value -> bool) (condition_error parse_error : string)
  (fuel : nat) :
  no_newline line = true ->
  words line = [tok] ->
  is_token s tok = true ->
  ends_in_space line = false ->
  condition (Scalar (token_value s tok)) = true ->
  ask_for_single (S fuel) (TScalar s) message condition condition_error
    parse_error (with_line line rest out err)
  = Ret (Scalar (token_value s tok)) (accepted message rest out err).
Proof.
  intros Hn W T E C.
  assert (M : tokens_match [s] [tok] = true) by (simpl; now rewrite T).
  pose proof (ask_for_impl_scalars message condition condition_error
                parse_error [s] [tok] [] line rest out err Hn W M) as H.
  destruct (fill_line_scalars [s] [tok] [] line W M) as (_ & _ & _ & W').
  rewrite (drop_words_nil _ _ W' E) in H. cbn [is_nil negb] in H.
  unfold errors_after, condition_errors in H. simpl in H. rewrite C in H.
  unfold ask_for_single.
  now rewrite (ask_for_loop_accept message condition condition_error
                 parse_error [TScalar s] fuel _ _ _ H).
Qed.

Lemma single_value_first_attempt_example :
  ask_for_single 1 (TScalar SChar) default_message any_value
    default_condition_error default_parse_error
    (with_line (list_ascii_of_string "  y") [] EmptyString EmptyString)
  = Ret (Scalar (VChar "y"))
      (accepted default_message [] EmptyString EmptyString).
Proof.
  apply (single_value_first_attempt SChar (list_ascii_of_string "y")
           (list_ascii_of_string "  y"));
    reflexivity.
Defined.

(** X6.  [ask_for<T1, T2, T...>] for scalar types, on a line that holds
    exactly one token for each, in order, and does not end in white space:
    when the condition holds of the last value, the values of the tokens are
    returned in order from the first attempt and nothing is printed but the
    prompt. *)
Theorem scalar_tuple_filled_in_order (T1 T2 : scalar) (T : list scalar)
  (line : list ascii) (rest : list event) (out err : string)
  (message : string) (condition : value -> bool)
  (condition_error parse_error : string) (fuel : nat) :
  no_newline line = true ->
  tokens_match (T1 :: T2 :: T) (words line) = true ->
  ends_in_space line = false ->
  errors_after (map Scalar (token_values (T1 :: T2 :: T) (words line)))
    condition = false ->
  ask_for_multiple (S fuel) (TScalar T1) (TScalar T2) (map TScalar T)
    message condition condition_error parse_error
    (with_line line rest out err)
  = Ret (map Scalar (token_values (T1 :: T2 :: T) (words line)))
      (accepted message rest out err).
Proof.
  intros Hn M E C.
  assert (W : words line = words line ++ []) by now rewrite app_nil_r.
  pose proof (ask_for_impl_scalars message condition condition_error
                parse_error (T1 :: T2 :: T) (words line) [] line rest out err
                Hn W M) as H.
  destruct (fill_line_scalars (T1 :: T2 :: T) (words line) [] line W M)
    as (_ & _ & _ & W').
  rewrite (drop_words_nil _ _ W' E), C in H. cbn [is_nil negb] in H.
  unfold ask_for_multiple.
  exact (ask_for_loop_accept message condition condition_error parse_error
           (TScalar T1 :: TScalar T2 :: map TScalar T) fuel _ _ _ H).
Qed.

Lemma scalar_tuple_filled_in_order_example :
  ask_for_multiple 1 (TScalar SInt) (TScalar SStr) [] default_message
    positive_int default_condition_error default_parse_error
    (with_line (list_ascii_of_string "5 hello") [] EmptyString EmptyString)
  = Ret [Scalar (VInt 5); Scalar (VStr "hello")]
      (accepted default_message [] EmptyString EmptyString).
Proof.
  apply (scalar_tuple_filled_in_order SInt SStr []
           (list_ascii_of_string "5 hello"));
    reflexivity.
Defined.

(** X7.  For a request of scalars, a line that starts with a token for each
    and then holds at least one more token is excess input: the attempt
    prints the excess-input message and answers [false], whatever the
    condition, and the loop asks again. *)
Theorem surplus_token_is_excess_input (tys : list scalar)
  (toks more : list (list ascii)) (line : list ascii) (rest : list event)
  (out err : string) (message : string) (condition : value -> bool)
  (condition_error parse_error : string) (fuel : nat) :
  no_newline line = true ->
  words line = toks ++ more ->
  tokens_match tys toks = true ->
  is_nil more = false ->
  ask_for_impl message condition condition_error parse_error
    (map default_value (map TScalar tys)) (with_line line rest out err)
  = Ret (false, map Scalar (token_values tys toks))
      (asked_again message "Error: excess input" rest out err) /\
  ask_for_loop (S fuel) message condition condition_error parse_error
    (map TScalar tys) (with_line line rest out err)
  = ask_for_loop fuel message condition condition_error parse_error
      (map TScalar tys)
      (asked_again message "Error: excess input" rest out err).
Proof.
  intros Hn W M Hm.
  pose proof (ask_for_impl_scalars message condition condition_error
                parse_error tys toks more line rest out err Hn W M) as H.
  destruct (fill_line_scalars tys toks more line W M) as (_ & _ & _ & W').
  assert (D : is_nil (drop_words (List.length tys) line) = false).
  { destruct (drop_words _ line); [|reflexivity].
    simpl in W'. subst more. discriminate. }
  rewrite D in H. cbn [negb] in H. unfold scalar_slots in H.
  split; [exact H|].
  exact (ask_for_loop_retry message condition condition_error parse_error
           (map TScalar tys) fuel _ _ _ H).
Qed.

Lemma surplus_token_example :
  ask_for_impl default_message any_value default_condition_error
    default_parse_error (map default_value (map TScalar [SInt; SChar]))
    (with_line (list_ascii_of_string "7 y z") [] EmptyString EmptyString)
  = Ret (false, [Scalar (VInt 7); Scalar (VChar "y")])
      (asked_again default_message "Error: excess input" [] EmptyString
         EmptyString).
Proof.
  apply (surplus_token_is_excess_input [SInt; SChar]
           [list_ascii_of_string "7"; list_ascii_of_string "y"]
           [list_ascii_of_string "z"] (list_ascii_of_string "7 y z") []
           EmptyString EmptyString default_message any_value
           default_condition_error default_parse_error 0);
    reflexivity.
Defined.

(** ** Arrays and vectors filled from tokens *)

Lemma tokens_match_repeat (s : scalar) (toks : list (list ascii)) :
  forallb (is_token s) toks = true ->
  tokens_match (repeat s (List.length toks)) toks = true /\
  token_values (repeat s (List.length toks)) toks
  = map (token_value s) toks.
Proof.
  induction toks as [|tok toks IH]; simpl; [now split|].
  intros H. apply andb_true_iff in H as [Ht H].
  destruct (IH H) as [M V]. now rewrite Ht, M, V.
Qed.

(** X8.  [ask_for<std::array<T, N>>] for a scalar [T], on a line that holds
    exactly [N] tokens of type [T] and does not end in white space: when the
    condition holds of the array of their values, that array is returned
    from the first attempt and nothing is printed but the prompt. *)
Theorem array_filled_from_its_tokens (s : scalar) (line : list ascii)
  (rest : list event) (out err : string) (message : string)
  (condition : value -> bool) (condition_error parse_error : string)
  (fuel : nat) :
  no_newline line = true ->
  forallb (is_token s) (words line) = true ->
  ends_in_space line = false ->
  condition (Array (map (token_value s) (words line))) = true ->
  ask_for_single (S fuel) (TArray s (List.length (words line))) message
    condition condition_error parse_error (with_line line rest out err)
  = Ret (Array (map (token_value s) (words line)))
      (accepted message rest out err).
Proof.
  intros Hn T E C.
  destruct (tokens_match_repeat s (words line) T) as [M V].
  assert (W : words line = words line ++ []) by now rewrite app_nil_r.
  destruct (input_stream_tokens _ _ [] line goodbit (or_introl eq_refl) W M)
    as (st & I & F & B & W').
  rewrite repeat_length in *. rewrite (drop_words_nil _ _ W' E), V in I.
  rewrite map_repeat in I.
  assert (L : fill_line line
                [default_value (TArray s (List.length (words line)))]
              = Some ([Array (map (token_value s) (words line))],
                      mk_sstream [] (Ios.or st only_eof))).
  { unfold fill_line. cbn [default_value fill_slots extract]. now rewrite I. }
  assert (H : ask_for_impl message condition condition_error parse_error
                [default_value (TArray s (List.length (words line)))]
                (with_line line rest out err)
              = Ret (true, [Array (map (token_value s) (words line))])
                  (accepted message rest out err)).
  { rewrite (ask_for_impl_line message condition condition_error parse_error
               [default_value (TArray s (List.length (words line)))]
               _ _ _ rest out err Hn eq_refl L).
    cbn [sstate sbuf Ios.or failbit only_eof is_nil negb]. rewrite F.
    unfold errors_after, condition_errors. simpl. now rewrite C. }
  unfold ask_for_single.
  now rewrite (ask_for_loop_accept message condition condition_error
                 parse_error [TArray s (List.length (words line))] fuel
                 _ _ _ H).
Qed.

Lemma array_filled_from_its_tokens_example :
  ask_for_single 1 (TArray SInt 3) default_message any_value
    default_condition_error default_parse_error
    (with_line (list_ascii_of_string "1 -2 +3") [] EmptyString EmptyString)
  = Ret (Array [VInt 1; VInt (-2); VInt 3])
      (accepted default_message [] EmptyString EmptyString).
Proof.
  apply (array_filled_from_its_tokens SInt
           (list_ascii_of_string "1 -2 +3"));
    reflexivity.
Defined.

Lemma extract_scalar_not_good_eq (old : sval) (ss : sstream) :
  good (sstate ss) = false ->
  extract_scalar old ss = (old, ss_setstate only_fail ss).
Proof.
  intros G.
  assert (S : sentry ss = (false, ss_setstate only_fail ss)).
  { unfold sentry. now rewrite G. }
  destruct old; simpl.
  - unfold extract_int. now rewrite S.
  - unfold extract_string. now rewrite S.
  - unfold extract_char. now rewrite S.
  - unfold extract_integer. now rewrite S.
Qed.

(** On a stream that is used up an extraction fails at the end of the
    buffer and leaves the object alone. *)
Lemma extract_scalar_used_up (old : sval) (ss : sstream) :
  used_up ss ->
  extract_scalar old ss
  = (old, mk_sstream [] (mk_iostate true true false)).
Proof.
  destruct ss as [buf st]. intros [[G Sp]|(E & B & N)]; simpl in *.
  - subst st. now apply extract_scalar_all_space.
  - subst buf. rewrite extract_scalar_not_good_eq.
    + unfold ss_setstate. simpl. destruct st as [e f b]; simpl in *.
      subst e b. now destruct f.
    + destruct st as [e f b]; simpl in *. now subst e.
Qed.

Lemma used_up_at_end : used_up (mk_sstream [] (mk_iostate true true false)).
Proof. right. now repeat split. Qed.

(** The loop of the vector takes every token of the element type. *)
Lemma vector_loop_tokens (s : scalar) :
  forall (toks : list (list ascii)) (line : list ascii) (st : iostate)
         (vector : list sval) (fuel : nat),
    st = goodbit \/ st = only_eof /\ line = [] ->
    words line = toks ->
    forallb (is_token s) toks = true ->
    (List.length toks < fuel)%nat ->
    vector_loop fuel s (mk_sstream line st) vector
    = Some (vector ++ map (token_value s) toks,
            mk_sstream [] (mk_iostate true true false)).
Proof.
  induction toks as [|tok toks IH]; intros line st vector fuel Hst W T L;
    (destruct fuel as [|fuel]; [simpl in L; lia|]).
  - simpl. rewrite extract_scalar_used_up.
    + simpl. now rewrite app_nil_r.
    + destruct Hst as [->|[-> ->]]; [left|right]; simpl; repeat split.
      now apply words_all_space.
  - destruct Hst as [->|[_ ->]]; [|discriminate].
    destruct (words_cons_inv _ _ _ W)
      as (ws & rest & -> & Hws & Hne & Hns & Hrest & Hmore).
    simpl in T. apply andb_true_iff in T as [Ttok T].
    cbn [vector_loop].
    rewrite (extract_scalar_token_value s ws tok rest Hws Hne Hns Ttok Hrest).
    replace (Ios.fail (sstate (mk_sstream rest (state_after s rest))))
      with false by (now destruct s, rest).
    rewrite (IH rest (state_after s rest) _ fuel (state_after_cases s rest)
               Hmore T) by (simpl in L; lia).
    simpl. now rewrite <- app_assoc.
Qed.

(** X9.  [ask_for<std::vector<T>>] for a scalar [T], on a line all of whose
    tokens are of type [T]: the vector of their values, in order, is
    returned from the first attempt when the condition holds of it.  The
    line may be empty or blank (the vector is empty then) and may end in
    white space. *)
Theorem vector_takes_every_token (s : scalar) (line : list ascii)
  (rest : list event) (out err : string) (message : string)
  (condition : value -> bool) (condition_error parse_error : string)
  (fuel : nat) :
  no_newline line = true ->
  forallb (is_token s) (words line) = true ->
  condition (Vector s (map (token_value s) (words line))) = true ->
  ask_for_single (S fuel) (TVector s) message condition condition_error
    parse_error (with_line line rest out err)
  = Ret (Vector s (map (token_value s) (words line)))
      (accepted message rest out err).
Proof.
  intros Hn T C.
  assert (L : fill_line line [default_value (TVector s)]
              = Some ([Vector s (map (token_value s) (words line))],
                      mk_sstream [] only_eof)).
  { unfold fill_line. cbn [default_value fill_slots extract].
    unfold extract_vector. cbn [sbuf].
    rewrite (vector_loop_tokens s (words line) line goodbit [] _
               (or_introl eq_refl) eq_refl T).
    - reflexivity.
    - pose proof (words_length line). lia. }
  assert (H : ask_for_impl message condition condition_error parse_error
                [default_value (TVector s)] (with_line line rest out err)
              = Ret (true, [Vector s (map (token_value s) (words line))])
                  (accepted message rest out err)).
  { rewrite (ask_for_impl_line message condition condition_error parse_error
               [default_value (TVector s)] _ _ _ rest out err Hn eq_refl L).
    unfold errors_after, condition_errors. simpl. now rewrite C. }
  unfold ask_for_single.
  now rewrite (ask_for_loop_accept message condition condition_error
                 parse_error [TVector s] fuel _ _ _ H).
Qed.

Lemma vector_takes_every_token_example :
  ask_for_single 1 (TVector SStr) default_message any_value
    default_condition_error default_parse_error
    (with_line (list_ascii_of_string " to be  or not ") [] EmptyString
       EmptyString)
  = Ret (Vector SStr [VStr "to"; VStr "be"; VStr "or"; VStr "not"])
      (accepted default_message [] EmptyString EmptyString).
Proof.
  apply (vector_takes_every_token SStr
           (list_ascii_of_string " to be  or not "));
    reflexivity.
Defined.

Lemma vector_loop_appends (s : scalar) (fuel : nat) (ss : sstream)
  (vector : list sval) (r : list sval * sstream) :
  vector_loop fuel s ss vector = Some r ->
  exists added, fst r = vector ++ added.
Proof.
  revert ss vector. induction fuel as [|fuel IH]; intros ss vector;
    [discriminate|].
  simpl. destruct (extract_scalar (default_scalar s) ss) as [t ss1].
  destruct (Ios.fail (sstate ss1)).
  - intros [= <-]. exists []. simpl. now rewrite app_nil_r.
  - intros H. destruct (IH _ _ H) as [added E].
    exists (t :: added). rewrite E, <- app_assoc. reflexivity.
Qed.

Lemma extract_scalar_badbit (old : sval) (ss : sstream) :
  badbit (sstate (snd (extract_scalar old ss))) = badbit (sstate ss).
Proof.
  destruct (good (sstate ss)) eqn:G.
  - apply good_goodbit in G.
    assert (I : ss_inv ss) by (split; rewrite G; simpl; congruence).
    rewrite (proj1 (extract_scalar_inv old ss I)). now rewrite G.
  - rewrite (extract_scalar_not_good_eq old ss G). simpl.
    now rewrite orb_false_r.
Qed.

Lemma vector_loop_badbit (s : scalar) (fuel : nat) (ss : sstream)
  (vector : list sval) (r : list sval * sstream) :
  vector_loop fuel s ss vector = Some r ->
  badbit (sstate (snd r)) = badbit (sstate ss) /\
  Ios.fail (sstate (snd r)) = true.
Proof.
  revert ss vector. induction fuel as [|fuel IH]; intros ss vector;
    [discriminate|].
  simpl. pose proof (extract_scalar_badbit (default_scalar s) ss) as B.
  destruct (extract_scalar (default_scalar s) ss) as [t ss1]. simpl in B.
  destruct (Ios.fail (sstate ss1)) eqn:F.
  - intros [= <-]. now split.
  - intros H. destruct (IH _ _ H) as [B' F']. split; [congruence|exact F'].
Qed.

(** X10.  [operator>>] into a vector only appends: whatever the stream
    holds and whatever its state, the elements the vector had stay in front,
    in order, [badbit] is left as it was, and [fail()] holds afterwards
    exactly when the stream was bad; on a stream that is not bad [fail()]
    does not hold afterwards. *)
Theorem vector_extraction_appends (s : scalar) (ss : sstream)
  (vector : list sval) :
  exists added ss',
    extract_vector s ss vector = Some (vector ++ added, ss') /\
    badbit (sstate ss') = badbit (sstate ss) /\
    Ios.fail (sstate ss') = badbit (sstate ss).
Proof.
  destruct (extract_vector_total s ss vector) as [[v ss'] E].
  unfold extract_vector in E.
  destruct (vector_loop _ s ss vector) as [[v1 ss1]|] eqn:L; [|discriminate].
  destruct (vector_loop_appends _ _ _ _ _ L) as [added A].
  destruct (vector_loop_badbit _ _ _ _ _ L) as [B F].
  simpl in A, B, F. subst v1. rewrite F in E. injection E as <- <-.
  exists added. eexists. split.
  - unfold extract_vector. rewrite L, F. reflexivity.
  - unfold Ios.fail in *. simpl. rewrite B, xorb_false_r. rewrite B in F.
    destruct (failbit (sstate ss1)), (badbit (sstate ss));
      simpl in *; try discriminate; now split.
Qed.

Lemma fill_slots_app (a b : list value) (ss : sstream) :
  fill_slots (a ++ b) ss
  = match fill_slots a ss with
    | None => None
    | Some (a', ss1) =>
        match fill_slots b ss1 with
        | None => None
        | Some (b', ss2) => Some (a' ++ b', ss2)
        end
    end.
Proof.
  revert ss. induction a as [|x a IH]; intros ss; simpl.
  - now destruct (fill_slots b ss) as [[b' ss2]|].
  - destruct (extract x ss) as [[x' ss1]|]; [|reflexivity].
    rewrite IH. destruct (fill_slots a ss1) as [[a' ss2]|]; [|reflexivity].
    now destruct (fill_slots b ss2) as [[b' ss3]|].
Qed.

Lemma single_string_empty_vector_last (line : list ascii)
  (front : list value) (s : scalar) (vs : list sval) :
  single_string_empty line (front ++ [Vector s vs]) = false.
Proof.
  destruct front as [|[[z|x|c|k z]|ws|s' ws] [|b front]]; reflexivity.
Qed.

(** X11.  A request whose last object is a vector never has a parse
    failure: whatever the line and whatever the objects in front, the fill
    ends without [failbit], so the attempt ends as excess input, as a
    condition error or accepted, and the parse-error message is not what is
    printed. *)
Theorem vector_last_has_no_parse_failure (front : list value) (s : scalar)
  (vs : list sval) (line : list ascii) (rest : list event)
  (out err : string) (message : string) (condition : value -> bool)
  (condition_error parse_error : string) :
  no_newline line = true ->
  exists t' ss,
    fill_line line (front ++ [Vector s vs]) = Some (t', ss) /\
    Ios.fail (sstate ss) = false /\
    ask_for_impl message condition condition_error parse_error
      (front ++ [Vector s vs]) (with_line line rest out err)
    = if negb (is_nil (sbuf ss)) then
        Ret (false, t')
          (asked_again message "Error: excess input" rest out err)
      else if errors_after t' condition then
        Ret (false, t') (asked_again message condition_error rest out err)
      else Ret (true, t') (accepted message rest out err).
Proof.
  intros Hn.
  destruct (fill_line_total line (front ++ [Vector s vs]))
    as (t' & ss & E & B & _).
  assert (F : failbit (sstate ss) = false).
  { unfold fill_line in E. rewrite fill_slots_app in E.
    destruct (fill_slots front (mk_sstream line goodbit))
      as [[front' ss1]|] eqn:E1; [|discriminate].
    pose proof (fill_slots_inv _ _ _ (ss_inv_fresh line) E1) as I1.
    cbn [fill_slots extract] in E.
    destruct (extract_vector s ss1 vs) as [[vs' ss2]|] eqn:E2;
      [|discriminate].
    destruct (extract_vector_inv _ _ _ _ I1 E2) as [_ F2]. simpl in F2.
    unfold Ios.fail in F2. apply orb_false_iff in F2 as [F2 _].
    injection E as _ <-. destruct (Nat.eqb _ 0); simpl; rewrite F2;
      reflexivity. }
  exists t', ss. split; [exact E|]. split.
  - unfold Ios.fail. now rewrite F, B.
  - rewrite (ask_for_impl_line message condition condition_error parse_error
               _ _ _ _ rest out err Hn
               (single_string_empty_vector_last line front s vs) E).
    now rewrite F.
Qed.

Lemma vector_last_example :
  exists t' ss,
    fill_line (list_ascii_of_string "x 1")
      [Scalar (VInt 0); Vector SInt []] = Some (t', ss) /\
    Ios.fail (sstate ss) = false /\
    ask_for_impl default_message any_value default_condition_error
      default_parse_error [Scalar (VInt 0); Vector SInt []]
      (with_line (list_ascii_of_string "x 1") [] EmptyString EmptyString)
    = if negb (is_nil (sbuf ss)) then
        Ret (false, t')
          (asked_again default_message "Error: excess input" [] EmptyString
             EmptyString)
      else if errors_after t' any_value then
        Ret (false, t')
          (asked_again default_message default_condition_error [] EmptyString
             EmptyString)
      else Ret (true, t') (accepted default_message [] EmptyString EmptyString).
Proof.
  apply (vector_last_has_no_parse_failure [Scalar (VInt 0)] SInt []
           (list_ascii_of_string "x 1")).
  reflexivity.
Defined.

(** On a stream that is used up, every object is left as it is. *)
Lemma input_stream_used_up (array : list sval) (ss : sstream) :
  used_up ss ->
  fst (input_stream ss array) = array /\
  used_up (snd (input_stream ss array)).
Proof.
  revert ss. induction array as [|a r IH]; intros ss U; [now split|].
  simpl. rewrite (extract_scalar_used_up a ss U).
  destruct (IH _ used_up_at_end) as [E U'].
  destruct (input_stream _ r) as [vs ss2]. simpl in *. now subst vs.
Qed.

Lemma extract_vector_used_up (s : scalar) (vs : list sval) (ss : sstream) :
  used_up ss ->
  extract_vector s ss vs = Some (vs, mk_sstream [] only_eof).
Proof.
  intros U. unfold extract_vector. cbn [vector_loop].
  now rewrite (extract_scalar_used_up _ ss U).
Qed.

Lemma fill_slots_used_up (t : list value) (ss : sstream) :
  used_up ss ->
  exists ss', fill_slots t ss = Some (t, ss') /\ used_up ss'.
Proof.
  revert ss. induction t as [|a b IH]; intros ss U; [now exists ss|].
  assert (E : exists ss1, extract a ss = Some (a, ss1) /\ used_up ss1).
  { destruct a as [v|vs|s vs]; simpl.
    - rewrite (extract_scalar_used_up v ss U).
      eexists. split; [reflexivity|apply used_up_at_end].
    - destruct (input_stream_used_up vs ss U) as [E U'].
      destruct (input_stream ss vs) as [vs' ss1]. simpl in *. subst vs'.
      now exists ss1.
    - rewrite (extract_vector_used_up s vs ss U).
      eexists. split; [reflexivity|]. right. now repeat split. }
  destruct E as (ss1 & E & U1). destruct (IH ss1 U1) as (ss2 & E2 & U2).
  exists ss2. simpl. now rewrite E, E2.
Qed.

(** X12.  A request whose last object is a vector takes an empty or blank
    line: every object keeps the value it was declared with, the parse
    failures of the objects in front are forgotten when the vector clears
    [failbit], and the attempt is accepted when the condition holds of the
    empty vector. *)
Theorem blank_line_accepted_before_vector (tys : list slot_ty) (s : scalar)
  (line : list ascii) (rest : list event) (out err : string)
  (message : string) (condition : value -> bool)
  (condition_error parse_error : string) (fuel : nat) :
  no_newline line = true ->
  forallb is_space line = true ->
  condition (Vector s []) = true ->
  ask_for_loop (S fuel) message condition condition_error parse_error
    (tys ++ [TVector s]) (with_line line rest out err)
  = Ret (map default_value (tys ++ [TVector s]))
      (accepted message rest out err).
Proof.
  intros Hn Sp C. apply ask_for_loop_accept.
  rewrite map_app. cbn [map default_value].
  assert (U : used_up (mk_sstream line goodbit)) by (left; now split).
  assert (L : fill_line line (map default_value tys ++ [Vector s []])
              = Some (map default_value tys ++ [Vector s []],
                      mk_sstream [] only_eof)).
  { unfold fill_line. rewrite fill_slots_app.
    destruct (fill_slots_used_up (map default_value tys) _ U)
      as (ss1 & -> & U1).
    cbn [fill_slots extract].
    now rewrite (extract_vector_used_up s [] ss1 U1). }
  rewrite (ask_for_impl_line message condition condition_error parse_error
             _ _ _ _ rest out err Hn
             (single_string_empty_vector_last line _ s []) L).
  cbn [sstate sbuf failbit only_eof is_nil negb].
  rewrite errors_after_last. unfold condition_errors. now rewrite C.
Qed.

Lemma blank_line_before_vector_example :
  ask_for_loop 1 default_message any_value default_condition_error
    default_parse_error [TScalar SInt; TVector SInt]
    (with_line (list_ascii_of_string "  ") [] EmptyString EmptyString)
  = Ret [Scalar (VInt 0); Vector SInt []]
      (accepted default_message [] EmptyString EmptyString).
Proof.
  apply (blank_line_accepted_before_vector [TScalar SInt] SInt
           (list_ascii_of_string "  "));
    reflexivity.
Defined.

(** ** The prompt loop on its input *)

Lemma ask_for_loop_retries_example :
  ask_for_loop 3 "? " positive_int default_condition_error
    default_parse_error [TScalar SInt]
    (mk_world
       (mk_istream
          (lines_then
             ([list_ascii_of_string "x"; list_ascii_of_string "-1"]
              ++ [list_ascii_of_string "7"]) [])
          goodbit) EmptyString EmptyString)
  = Ret [Scalar (VInt 7)]
      (accepted "? " []
         ("? " ++ default_parse_error ++ nl
          ++ "? " ++ default_condition_error ++ nl)
         EmptyString).
Proof.
  apply (ask_for_loop_retries "? " positive_int default_condition_error
           default_parse_error [TScalar SInt]
           [list_ascii_of_string "x"; list_ascii_of_string "-1"]
           (list_ascii_of_string "7") [] EmptyString EmptyString);
    reflexivity.
Defined.

Lemma ask_for_single_condition_example :
  positive_int (Scalar (VInt 7)) = true.
Proof.
  apply (ask_for_single_condition "? " positive_int default_condition_error
           default_parse_error 2 (TScalar SInt)
           (console ("-3" ++ nl ++ "7" ++ nl))
           (mk_world (mk_istream [] goodbit)
              ("? " ++ default_condition_error ++ nl ++ "? ") EmptyString)
           (Scalar (VInt 7))).
  reflexivity.
Defined.

Lemma ask_for_multiple_condition_last_example :
  exists front a,
    [Scalar (VStr "n"); Scalar (VInt 4)] = front ++ [a] /\
    positive_int a = true.
Proof.
  apply (ask_for_multiple_condition_last "? " positive_int
           default_condition_error default_parse_error 1 (TScalar SStr)
           (TScalar SInt) [] (console ("n 4" ++ nl))
           (mk_world (mk_istream [] goodbit) "? " EmptyString)).
  reflexivity.
Defined.

(** X13.  When the input ends before a line terminator (in particular when
    it is empty), [ask_for] prints the prompt once and leaves by
    [Eof_exception]: the characters in front of the end are taken from the
    input and thrown away, no message follows the prompt and nothing is
    returned, whatever is asked for.  [failbit] is set as well when there
    was no character at all. *)
Theorem input_without_terminator_throws (message : string)
  (condition : value -> bool) (condition_error parse_error : string)
  (tys : list slot_ty) (line : list ascii) (out err : string) (fuel : nat) :
  no_newline line = true ->
  ask_for_loop (S fuel) message condition condition_error parse_error tys
    (mk_world (mk_istream (map Ch line) goodbit) out err)
  = Eof_exception
      (mk_world (mk_istream [] (mk_iostate true (is_nil line) false))
         (out ++ message) err).
Proof.
  intros Hn. simpl. unfold ask_for_impl.
  change (put_cout message
            (mk_world (mk_istream (map Ch line) goodbit) out err))
    with (mk_world (mk_istream (map Ch line) goodbit) (out ++ message) err).
  now rewrite (get_line_fill_unterminated _ line (out ++ message) err Hn).
Qed.

Lemma input_without_terminator_example :
  ask_for_loop 1 default_message any_value default_condition_error
    default_parse_error [TScalar SStr]
    (mk_world (mk_istream [] goodbit) EmptyString EmptyString)
  = Eof_exception
      (mk_world (mk_istream [] (mk_iostate true true false))
         default_message EmptyString).
Proof.
  apply (input_without_terminator_throws default_message any_value
           default_condition_error default_parse_error [TScalar SStr] []).
  reflexivity.
Defined.

Lemma eof_not_good (st : iostate) : eofbit st = true -> good st = false.
Proof. destruct st as [[] f b]; simpl; [reflexivity|discriminate]. Qed.

Lemma get_line_fill_throws_at_eof (t : list value) (w w1 : world) :
  get_line_fill t w = Eof_exception w1 ->
  eofbit (istate (cin w1)) = true.
Proof.
  unfold get_line_fill. destruct (getline (cin w)) as [s ist].
  destruct (eof (istate ist)) eqn:E.
  - now intros [= <-].
  - destruct (negb (good (istate ist))); [discriminate|].
    destruct (single_string_empty s t); [discriminate|].
    destruct (fill_line s t) as [[t' ss]|]; discriminate.
Qed.

Lemma ask_for_loop_throws_at_eof (message : string)
  (condition : value -> bool) (condition_error parse_error : string)
  (tys : list slot_ty) (fuel : nat) (w w1 : world) :
  ask_for_loop fuel message condition condition_error parse_error tys w
  = Eof_exception w1 ->
  eofbit (istate (cin w1)) = true.
Proof.
  revert w. induction fuel as [|fuel IH]; intros w; [discriminate|].
  simpl. unfold ask_for_impl at 1.
  destruct (get_line_fill _ (put_cout message w)) as [t1 w2|w2|] eqn:G;
    try discriminate.
  - destruct (bad _); [apply IH|].
    destruct (Ios.fail _); [apply IH|].
    destruct (negb (eof _)); [apply IH|].
    destruct (errors_after t1 condition); [apply IH|discriminate].
  - intros [= <-]. exact (get_line_fill_throws_at_eof _ _ _ G).
Qed.

(** X14.  [Eof_exception] comes back: the header does not clear [std::cin]
    when it throws, so after a call has left by [Eof_exception] every later
    call, whatever it asks for, prints its prompt, reads nothing and leaves
    by [Eof_exception] again. *)
Theorem eof_exception_comes_back (message : string)
  (condition : value -> bool) (condition_error parse_error : string)
  (tys : list slot_ty) (fuel : nat) (w w1 : world)
  (message' : string) (condition' : value -> bool)
  (condition_error' parse_error' : string) (tys' : list slot_ty)
  (fuel' : nat) :
  ask_for_loop fuel message condition condition_error parse_error tys w
  = Eof_exception w1 ->
  ask_for_loop (S fuel') message' condition' condition_error' parse_error'
    tys' w1
  = Eof_exception
      (mk_world (is_setstate only_fail (cin w1)) (cout w1 ++ message')
         (cerr w1)).
Proof.
  intros H. pose proof (ask_for_loop_throws_at_eof _ _ _ _ _ _ _ _ H) as E.
  simpl. unfold ask_for_impl, get_line_fill, getline. cbn [put_cout cin].
  rewrite (eof_not_good _ E).
  cbn [is_setstate istate eof Ios.or eofbit]. now rewrite E.
Qed.

Lemma eof_exception_comes_back_example :
  ask_for_loop 1 "again: " any_value default_condition_error
    default_parse_error [TScalar SStr]
    (mk_world (mk_istream [] only_eof) default_message EmptyString)
  = Eof_exception
      (mk_world (mk_istream [] (mk_iostate true true false))
         (default_message ++ "again: ") EmptyString).
Proof.
  apply (eof_exception_comes_back default_message any_value
           default_condition_error default_parse_error [TScalar SInt] 1
           (console "42")).
  reflexivity.
Defined.

(** X15.  A [failbit] left on [std::cin] before the call costs one attempt
    and no input: [std::getline] reads nothing, the objects are not touched,
    the parse-error message is printed, the stream is cleared, and the loop
    asks again with the whole input still to be read. *)
Theorem stale_failbit_costs_one_attempt (message : string)
  (condition : value -> bool) (condition_error parse_error : string)
  (tys : list slot_ty) (evs : list event) (out err : string) (fuel : nat) :
  ask_for_impl message condition condition_error parse_error
    (map default_value tys) (mk_world (mk_istream evs only_fail) out err)
  = Ret (false, map default_value tys)
      (asked_again message parse_error evs out err) /\
  ask_for_loop (S fuel) message condition condition_error parse_error tys
    (mk_world (mk_istream evs only_fail) out err)
  = ask_for_loop fuel message condition condition_error parse_error tys
      (asked_again message parse_error evs out err).
Proof. split; reflexivity. Qed.

(** X16.  An attempt on a terminated line takes exactly that line from the
    input, whatever its verdict: it returns (nothing is thrown), what
    followed the line is still to be read, [std::cin] is good, and nothing
    was written to [std::cerr].  What is left of a rejected line is never
    read by the next attempt. *)
Theorem attempt_takes_one_line (message : string)
  (condition : value -> bool) (condition_error parse_error : string)
  (t : list value) (line : list ascii) (rest : list event)
  (out err : string) :
  no_newline line = true ->
  exists b t1 out',
    ask_for_impl message condition condition_error parse_error t
      (with_line line rest out err)
    = Ret (b, t1) (mk_world (mk_istream rest goodbit) out' err).
Proof.
  intros Hn.
  rewrite (ask_for_impl_verdict message condition condition_error
             parse_error t line rest out err Hn).
  destruct (is_accepted _); eexists _, _, _; reflexivity.
Qed.

Lemma attempt_takes_one_line_example :
  exists b t1 out',
    ask_for_impl default_message any_value default_condition_error
      default_parse_error [default_value (TScalar SInt)]
      (with_line (list_ascii_of_string "1 2 3")
         (map Ch (list_ascii_of_string "4")) EmptyString EmptyString)
    = Ret (b, t1)
        (mk_world (mk_istream (map Ch (list_ascii_of_string "4")) goodbit)
           out' EmptyString).
Proof.
  apply (attempt_takes_one_line default_message any_value
           default_condition_error default_parse_error
           [default_value (TScalar SInt)] (list_ascii_of_string "1 2 3")).
  reflexivity.
Defined.

(** X17.  [ask_for<T>(message, parse_error)], the form without a condition,
    does not pass its [parse_error] on: on a line that is a parse failure
    followed by a line that is accepted, it prints the prompt, the default
    text "Error: parse error" whatever text the caller gave, the prompt
    again, and returns the object filled from the second line. *)
Theorem single_default_ignores_parse_error (T : slot_ty)
  (message parse_error : string) (line last : list ascii)
  (rest : list event) (out err : string) (fuel : nat) :
  no_newline line = true ->
  no_newline last = true ->
  verdict_of (fun _ => true) [default_value T] line = ParseFailure ->
  verdict_of (fun _ => true) [default_value T] last = Accepted ->
  ask_for_single_any (S (S fuel)) T message parse_error
    (mk_world (mk_istream (lines_then [line; last] rest) goodbit) out err)
  = Ret (hd (default_value T) (filled [default_value T] last))
      (mk_world (mk_istream rest goodbit)
         (((out ++ message) ++ "Error: parse error" ++ nl) ++ message) err).
Proof.
  intros Hn Hl V Va. unfold ask_for_single_any, ask_for_single.
  pose proof (ask_for_impl_verdict message (fun _ => true)
                default_condition_error default_parse_error
                [default_value T] line
                (map Ch last ++ Ch newline :: rest) out err Hn) as H.
  rewrite V in H. cbn [is_accepted message_of] in H.
  pose proof (ask_for_impl_verdict message (fun _ => true)
                default_condition_error default_parse_error
                [default_value T] last rest
                ((out ++ message) ++ default_parse_error ++ nl) err Hl)
    as H'.
  rewrite Va in H'. cbn [is_accepted] in H'.
  cbn [lines_then].
  change (mk_world
            (mk_istream
               (map Ch line ++ Ch newline :: map Ch last ++ Ch newline :: rest)
               goodbit) out err)
    with (with_line line (map Ch last ++ Ch newline :: rest) out err).
  rewrite (ask_for_loop_retry message (fun _ => true)
             default_condition_error default_parse_error [T] (S fuel) _ _ _
             H).
  change (asked_again message default_parse_error
            (map Ch last ++ Ch newline :: rest) out err)
    with (with_line last rest
            ((out ++ message) ++ default_parse_error ++ nl) err).
  now rewrite (ask_for_loop_accept message (fun _ => true)
                 default_condition_error default_parse_error [T] fuel _ _ _
                 H').
Qed.

Lemma single_default_ignores_parse_error_example :
  ask_for_single_any 2 (TScalar SInt) "? " "not a number"
    (mk_world
       (mk_istream
          (lines_then [list_ascii_of_string "x"; list_ascii_of_string "5"] [])
          goodbit) EmptyString EmptyString)
  = Ret (Scalar (VInt 5))
      (mk_world (mk_istream [] goodbit)
         ("? " ++ "Error: parse error" ++ nl ++ "? ") EmptyString).
Proof.
  apply (single_default_ignores_parse_error (TScalar SInt) "? "
           "not a number" (list_ascii_of_string "x")
           (list_ascii_of_string "5") [] EmptyString EmptyString 0);
    reflexivity.
Defined.

Lemma errors_after_always (t : list value) :
  t <> [] -> errors_after t (fun _ => true) = false.
Proof.
  intros H. destruct (exists_last H) as (front & a & ->).
  now rewrite errors_after_last.
Qed.

(** X18.  [ask_for<T1, T2, T...>(message, parse_error)], the form without a
    condition, returns from the first line that fills every object and is
    used up: with its always-true condition no condition error is ever
    found, so its empty condition-error text is never printed. *)
Theorem multiple_default_accepts_filled_line (T1 T2 : slot_ty)
  (T : list slot_ty) (message parse_error : string) (line : list ascii)
  (t' : list value) (ss : sstream) (rest : list event) (out err : string)
  (fuel : nat) :
  no_newline line = true ->
  fill_line line (map default_value (T1 :: T2 :: T)) = Some (t', ss) ->
  failbit (sstate ss) = false ->
  is_nil (sbuf ss) = true ->
  ask_for_multiple_any (S fuel) T1 T2 T message parse_error
    (with_line line rest out err)
  = Ret t' (accepted message rest out err).
Proof.
  intros Hn E F N. unfold ask_for_multiple_any, ask_for_multiple.
  apply ask_for_loop_accept.
  assert (S : single_string_empty line (map default_value (T1 :: T2 :: T))
              = false).
  { simpl. destruct (default_value T1) as [[z|x|c|k z]|vs|s vs];
      reflexivity. }
  rewrite (ask_for_impl_line message (fun _ => true) EmptyString parse_error
             _ _ _ _ rest out err Hn S E).
  rewrite F, N. cbn [negb]. rewrite errors_after_always; [reflexivity|].
  unfold fill_line in E.
  destruct (fill_slots _ _) as [[t0 ss0]|] eqn:E0; [|discriminate].
  injection E as <- _. apply fill_slots_length in E0.
  intros ->. discriminate.
Qed.

Lemma multiple_default_accepts_filled_line_example :
  ask_for_multiple_any 1 (TScalar SInt) (TVector SChar) [] "? " "bad"
    (with_line (list_ascii_of_string "-5 a b") [] EmptyString EmptyString)
  = Ret [Scalar (VInt (-5)); Vector SChar [VChar "a"; VChar "b"]]
      (accepted "? " [] EmptyString EmptyString).
Proof.
  apply (multiple_default_accepts_filled_line (TScalar SInt) (TVector SChar)
           [] "? " "bad" (list_ascii_of_string "-5 a b") _
           (mk_sstream [] only_eof));
    reflexivity.
Defined.

(** X19.  When [ask_for] returns, [std::cin] is good again (whatever state
    it was in before and whatever the attempts did to it) and there is one
    object for every type asked for. *)
Theorem ask_for_returns_with_good_stream (message : string)
  (condition : value -> bool) (condition_error parse_error : string)
  (tys : list slot_ty) (fuel : nat) (w w1 : world) (t : list value) :
  ask_for_loop fuel message condition condition_error parse_error tys w
  = Ret t w1 ->
  istate (cin w1) = goodbit /\ List.length t = List.length tys.
Proof.
  intros H.
  destruct (ask_for_loop_returns _ _ _ _ _ _ _ _ _ H) as [w0 H0].
  destruct (ask_for_impl_true _ _ _ _ _ _ _ _ H0) as (_ & L & _ & _ & G).
  split; [exact G|]. now rewrite L, length_map.
Qed.

Lemma ask_for_returns_with_good_stream_example :
  istate (cin (mk_world (mk_istream [] goodbit)
                 ("? " ++ default_parse_error ++ nl ++ "? ") EmptyString))
  = goodbit /\
  List.length [Scalar (VInt 9)] = List.length [TScalar SInt].
Proof.
  apply (ask_for_returns_with_good_stream "? " any_value
           default_condition_error default_parse_error [TScalar SInt] 2
           (mk_world (mk_istream (map Ch (list_ascii_of_string ("9" ++ nl)))
                        only_fail) EmptyString EmptyString)).
  reflexivity.
Defined.

(** ** White space behind the last token *)

Lemma ends_in_space_app (pre r : list ascii) :
  r <> [] -> ends_in_space (pre ++ r) = ends_in_space r.
Proof.
  intros Hne. destruct (exists_last Hne) as (r0 & x & ->).
  unfold ends_in_space. now rewrite app_assoc, !rev_app_distr.
Qed.

Lemma ends_in_word (tok : list ascii) :
  tok <> [] -> forallb non_space tok = true -> ends_in_space tok = false.
Proof.
  intros Hne Hns. destruct (exists_last Hne) as (r0 & x & ->).
  rewrite forallb_app in Hns. apply andb_true_iff in Hns as [_ Hx].
  simpl in Hx. rewrite andb_true_r in Hx. unfold non_space in Hx.
  unfold ends_in_space. rewrite rev_app_distr. simpl.
  now destruct (is_space x).
Qed.

(** When nothing is left behind the tokens that were taken, the line ends
    with the last of them. *)
Lemma drop_words_nil_ends_in_word (n : nat) :
  forall (toks more : list (list ascii)) (line : list ascii),
    words line = toks ++ more ->
    List.length toks = S n ->
    drop_words (S n) line = [] ->
    ends_in_space line = false.
Proof.
  induction n as [|n IH]; intros toks more line W L D;
    (destruct toks as [|tok toks]; [discriminate|]);
    destruct (words_cons_inv _ _ _ W)
      as (ws & rest & -> & Hws & Hne & Hns & Hrest & Hmore);
    cbn [drop_words] in D;
    rewrite (drop_words_one ws tok rest Hws Hne Hns Hrest) in D.
  - simpl in D. subst rest. rewrite app_nil_r.
    rewrite (ends_in_space_app ws tok Hne). now apply ends_in_word.
  - assert (Hr : rest <> []).
    { intros ->. destruct toks; discriminate. }
    rewrite app_assoc, (ends_in_space_app _ rest Hr).
    apply (IH toks more rest Hmore); [simpl in L; lia|exact D].
Qed.

(** X20.  For a request of one or more scalars, a line that holds exactly
    one token for each but ends in white space is excess input: the values
    are parsed, the excess-input message is printed, the attempt answers
    [false] and the loop asks again. *)
Theorem trailing_space_after_tokens_is_excess_input (tys : list scalar)
  (line : list ascii) (rest : list event) (out err : string)
  (message : string) (condition : value -> bool)
  (condition_error parse_error : string) (fuel : nat) :
  no_newline line = true ->
  is_nil tys = false ->
  tokens_match tys (words line) = true ->
  ends_in_space line = true ->
  ask_for_impl message condition condition_error parse_error
    (map default_value (map TScalar tys)) (with_line line rest out err)
  = Ret (false, map Scalar (token_values tys (words line)))
      (asked_again message "Error: excess input" rest out err) /\
  ask_for_loop (S fuel) message condition condition_error parse_error
    (map TScalar tys) (with_line line rest out err)
  = ask_for_loop fuel message condition condition_error parse_error
      (map TScalar tys)
      (asked_again message "Error: excess input" rest out err).
Proof.
  intros Hn Hty M E.
  assert (W : words line = words line ++ []) by now rewrite app_nil_r.
  pose proof (ask_for_impl_scalars message condition condition_error
                parse_error tys (words line) [] line rest out err Hn W M)
    as H.
  assert (D : is_nil (drop_words (List.length tys) line) = false).
  { destruct (drop_words (List.length tys) line) eqn:Dn; [|reflexivity].
    destruct tys as [|s tys]; [discriminate|].
    rewrite (drop_words_nil_ends_in_word (List.length tys) (words line) []
               line W (tokens_match_length _ _ M) Dn) in E.
    discriminate. }
  rewrite D in H. cbn [negb] in H. unfold scalar_slots in H.
  split; [exact H|].
  exact (ask_for_loop_retry message condition condition_error parse_error
           (map TScalar tys) fuel _ _ _ H).
Qed.

Lemma trailing_space_after_tokens_example :
  ask_for_impl default_message any_value default_condition_error
    default_parse_error (map default_value (map TScalar [SStr; SInt]))
    (with_line (list_ascii_of_string "age 40 ") [] EmptyString EmptyString)
  = Ret (false, [Scalar (VStr "age"); Scalar (VInt 40)])
      (asked_again default_message "Error: excess input" [] EmptyString
         EmptyString).
Proof.
  apply (trailing_space_after_tokens_is_excess_input [SStr; SInt]
           (list_ascii_of_string "age 40 ") [] EmptyString EmptyString
           default_message any_value default_condition_error
           default_parse_error 0);
    reflexivity.
Defined.

(** ** Parse failures of scalars *)

Lemma input_stream_app (a b : list sval) (ss : sstream) :
  input_stream ss (a ++ b)
  = (fst (input_stream ss a)
     ++ fst (input_stream (snd (input_stream ss a)) b),
     snd (input_stream (snd (input_stream ss a)) b)).
Proof.
  revert ss. induction a as [|x a IH]; intros ss; simpl.
  - now destruct (input_stream ss b).
  - destruct (extract_scalar x ss) as [v ss1]. rewrite IH.
    destruct (input_stream ss1 a) as [va ss2]. simpl.
    now destruct (input_stream ss2 b).
Qed.

(** Once [failbit] is set, the objects that follow are left alone and the
    buffer is not read. *)
Lemma input_stream_failed (olds : list sval) (ss : sstream) :
  failbit (sstate ss) = true ->
  exists st',
    input_stream ss olds = (olds, mk_sstream (sbuf ss) st') /\
    failbit st' = true.
Proof.
  revert ss. induction olds as [|a r IH]; intros ss F.
  - exists (sstate ss). now destruct ss.
  - simpl. rewrite extract_scalar_not_good_eq.
    + destruct (IH (ss_setstate only_fail ss)) as (st' & -> & F').
      { simpl. now rewrite F. }
      now exists st'.
    + apply fail_not_good. unfold Ios.fail. now rewrite F.
Qed.

(** After the tokens that were taken the stream is good, or at [eof] with
    nothing left. *)
Lemma input_stream_tokens_state (tys : list scalar)
  (toks more : list (list ascii)) (line : list ascii) :
  words line = toks ++ more ->
  tokens_match tys toks = true ->
  exists st',
    input_stream (mk_sstream line goodbit) (map default_scalar tys)
    = (token_values tys toks,
       mk_sstream (drop_words (List.length tys) line) st') /\
    words (drop_words (List.length tys) line) = more /\
    (st' = goodbit \/
     st' = only_eof /\ drop_words (List.length tys) line = []).
Proof.
  intros W M.
  destruct (input_stream_tokens tys toks more line goodbit (or_introl eq_refl)
              W M) as (st' & E & F & B & W').
  exists st'. repeat split; try assumption.
  pose proof (input_stream_inv (map default_scalar tys) _
                (ss_inv_fresh line)) as [_ I].
  rewrite E in I. simpl in I.
  destruct st' as [[] f b]; simpl in *; subst f b; [right|left]; auto.
Qed.

(** X21.  For a request of scalars, a line that holds a token for the first
    objects only, and nothing (or white space) where the next one should be,
    is a parse failure: the objects without a token keep the value they were
    declared with, the parse-error message is printed, the attempt answers
    [false] and the loop asks again.  (The empty line for one
    [std::string] is the exception the header makes.) *)
Theorem too_few_tokens_is_parse_failure (tys1 : list scalar) (s : scalar)
  (tys2 : list scalar) (line : list ascii) (rest : list event)
  (out err : string) (message : string) (condition : value -> bool)
  (condition_error parse_error : string) (fuel : nat) :
  no_newline line = true ->
  tokens_match tys1 (words line) = true ->
  single_string_empty line (scalar_slots (tys1 ++ s :: tys2)) = false ->
  ask_for_impl message condition condition_error parse_error
    (map default_value (map TScalar (tys1 ++ s :: tys2)))
    (with_line line rest out err)
  = Ret (false,
         map Scalar (token_values tys1 (words line)
                     ++ map default_scalar (s :: tys2)))
      (asked_again message parse_error rest out err) /\
  ask_for_loop (S fuel) message condition condition_error parse_error
    (map TScalar (tys1 ++ s :: tys2)) (with_line line rest out err)
  = ask_for_loop fuel message condition condition_error parse_error
      (map TScalar (tys1 ++ s :: tys2))
      (asked_again message parse_error rest out err).
Proof.
  intros Hn M S.
  assert (W : words line = words line ++ []) by now rewrite app_nil_r.
  destruct (input_stream_tokens_state tys1 (words line) [] line W M)
    as (st1 & E1 & W1 & Hst).
  assert (U : used_up (mk_sstream (drop_words (List.length tys1) line) st1)).
  { destruct Hst as [->|[-> D]]; [left|right]; simpl; repeat split; auto.
    now apply words_all_space. }
  destruct (input_stream_failed (map default_scalar tys2)
              (mk_sstream [] (mk_iostate true true false)) eq_refl)
    as (st2 & E2 & F2).
  assert (L : exists st,
             fill_line line (scalar_slots (tys1 ++ s :: tys2))
             = Some (map Scalar (token_values tys1 (words line)
                                 ++ map default_scalar (s :: tys2)),
                     mk_sstream [] st) /\ failbit st = true).
  { unfold fill_line.
    rewrite scalar_slots_map, fill_slots_scalars, map_app, input_stream_app.
    rewrite E1. cbn [fst snd map input_stream].
    rewrite (extract_scalar_used_up _ _ U), E2. simpl.
    eexists. split; [reflexivity|]. simpl. now rewrite F2. }
  destruct L as (st & L & F).
  assert (H : ask_for_impl message condition condition_error parse_error
                (map default_value (map TScalar (tys1 ++ s :: tys2)))
                (with_line line rest out err)
              = Ret (false,
                     map Scalar (token_values tys1 (words line)
                                 ++ map default_scalar (s :: tys2)))
                  (asked_again message parse_error rest out err)).
  { fold (scalar_slots (tys1 ++ s :: tys2)).
    rewrite (ask_for_impl_line message condition condition_error parse_error
               _ _ _ _ rest out err Hn S L).
    cbn [sstate]. now rewrite F. }
  split; [exact H|].
  exact (ask_for_loop_retry message condition condition_error parse_error
           (map TScalar (tys1 ++ s :: tys2)) fuel _ _ _ H).
Qed.

Lemma too_few_tokens_example :
  ask_for_impl default_message any_value default_condition_error
    default_parse_error
    (map default_value (map TScalar ([SInt] ++ SStr :: [SChar])))
    (with_line (list_ascii_of_string "12 ") [] EmptyString EmptyString)
  = Ret (false,
         [Scalar (VInt 12); Scalar (VStr EmptyString); Scalar (VChar zero)])
      (asked_again default_message default_parse_error [] EmptyString
         EmptyString).
Proof.
  apply (too_few_tokens_is_parse_failure [SInt] SStr [SChar]
           (list_ascii_of_string "12 ") [] EmptyString EmptyString
           default_message any_value default_condition_error
           default_parse_error 0);
    reflexivity.
Defined.

(** X22.  For a request of scalars, a line on which the token for an [int]
    starts with a character that is no digit and no sign is a parse
    failure: the objects in front hold the values of their tokens, the
    [int] and the objects behind it are not filled, the parse-error message
    is printed (not the excess-input message, although the token is still
    in the buffer), the attempt answers [false] and the loop asks again. *)
Theorem malformed_int_is_parse_failure (tys1 tys2 : list scalar)
  (toks more : list (list ascii)) (line : list ascii) (c : ascii)
  (junk : list ascii) (rest : list event) (out err : string)
  (message : string) (condition : value -> bool)
  (condition_error parse_error : string) (fuel : nat) :
  no_newline line = true ->
  words line = toks ++ more ->
  tokens_match tys1 toks = true ->
  skip_ws (drop_words (List.length tys1) line) = c :: junk ->
  is_digit c = false -> is_sign c = false ->
  ask_for_impl message condition condition_error parse_error
    (map default_value (map TScalar (tys1 ++ SInt :: tys2)))
    (with_line line rest out err)
  = Ret (false,
         map Scalar (token_values tys1 toks
                     ++ map default_scalar (SInt :: tys2)))
      (asked_again message parse_error rest out err) /\
  ask_for_loop (S fuel) message condition condition_error parse_error
    (map TScalar (tys1 ++ SInt :: tys2)) (with_line line rest out err)
  = ask_for_loop fuel message condition condition_error parse_error
      (map TScalar (tys1 ++ SInt :: tys2))
      (asked_again message parse_error rest out err).
Proof.
  intros Hn W M K Hd Hsg.
  destruct (input_stream_tokens_state tys1 toks more line W M)
    as (st1 & E1 & W1 & Hst).
  assert (G : st1 = goodbit).
  { destruct Hst as [->|[_ D]]; [reflexivity|]. now rewrite D in K. }
  subst st1.
  assert (X : extract_scalar (default_scalar SInt)
                (mk_sstream (drop_words (List.length tys1) line) goodbit)
              = (VInt 0, mk_sstream (c :: junk) only_fail)).
  { unfold is_sign in Hsg. apply orb_false_iff in Hsg as [S1 S2].
    simpl. unfold extract_int, sentry. simpl. rewrite K. simpl.
    rewrite S1, S2. simpl. now rewrite Hd. }
  destruct (input_stream_failed (map default_scalar tys2)
              (mk_sstream (c :: junk) only_fail) eq_refl)
    as (st2 & E2 & F2).
  assert (L : exists st,
             fill_line line (scalar_slots (tys1 ++ SInt :: tys2))
             = Some (map Scalar (token_values tys1 toks
                                 ++ map default_scalar (SInt :: tys2)),
                     mk_sstream (c :: junk) st) /\ failbit st = true).
  { unfold fill_line.
    rewrite scalar_slots_map, fill_slots_scalars, map_app, input_stream_app.
    rewrite E1. cbn [fst snd map input_stream]. rewrite X, E2. simpl.
    eexists. split; [reflexivity|exact F2]. }
  destruct L as (st & L & F).
  assert (S : single_string_empty line (scalar_slots (tys1 ++ SInt :: tys2))
              = false).
  { destruct line; [|now destruct tys1 as [|[] [|? ?]]].
    simpl in W. destruct toks; [|discriminate].
    destruct tys1; [reflexivity|discriminate]. }
  assert (H : ask_for_impl message condition condition_error parse_error
                (map default_value (map TScalar (tys1 ++ SInt :: tys2)))
                (with_line line rest out err)
              = Ret (false,
                     map Scalar (token_values tys1 toks
                                 ++ map default_scalar (SInt :: tys2)))
                  (asked_again message parse_error rest out err)).
  { fold (scalar_slots (tys1 ++ SInt :: tys2)).
    rewrite (ask_for_impl_line message condition condition_error parse_error
               _ _ _ _ rest out err Hn S L).
    cbn [sstate]. now rewrite F. }
  split; [exact H|].
  exact (ask_for_loop_retry message condition condition_error parse_error
           (map TScalar (tys1 ++ SInt :: tys2)) fuel _ _ _ H).
Qed.

Lemma malformed_int_example :
  ask_for_impl default_message any_value default_condition_error
    default_parse_error
    (map default_value (map TScalar ([SStr] ++ SInt :: [])))
    (with_line (list_ascii_of_string "age forty") [] EmptyString EmptyString)
  = Ret (false, [Scalar (VStr "age"); Scalar (VInt 0)])
      (asked_again default_message default_parse_error [] EmptyString
         EmptyString).
Proof.
  apply (malformed_int_is_parse_failure [SStr] []
           [list_ascii_of_string "age"] [list_ascii_of_string "forty"]
           (list_ascii_of_string "age forty") "f"
           (list_ascii_of_string "orty") [] EmptyString EmptyString
           default_message any_value default_condition_error
           default_parse_error 0);
    reflexivity.
Defined.

(** ** Read faults *)

Lemma ask_for_loop_total_example :
  (exists t w1,
     ask_for_loop (enough faulty_console) "? " any_value
       default_condition_error default_parse_error [TScalar SInt]
       faulty_console = Ret t w1) \/
  (exists w1,
     ask_for_loop (enough faulty_console) "? " any_value
       default_condition_error default_parse_error [TScalar SInt]
       faulty_console = Eof_exception w1).
Proof.
  apply (ask_for_loop_total "? " any_value default_condition_error
           default_parse_error [TScalar SInt] faulty_console).
  reflexivity.
Defined.

(** X24.  On a device that has died, [ask_for] never returns and never
    throws: every attempt prints the prompt, finds [std::cin] bad, writes
    the diagnostic to [std::cerr], clears the stream and leaves the input
    where it was, so the next attempt is the same; the header has no way out
    of this loop.  In the model no number of iterations is enough. *)
Theorem dead_device_never_returns (message : string)
  (condition : value -> bool) (condition_error parse_error : string)
  (tys : list slot_ty) (r : list event) :
  (forall out err,
      ask_for_impl message condition condition_error parse_error
        (map default_value tys)
        (mk_world (mk_istream (Dead :: r) goodbit) out err)
      = Ret (false, map default_value tys)
          (mk_world (mk_istream (Dead :: r) goodbit) (out ++ message)
             (err ++ "Cannot read from stream" ++ nl))) /\
  (forall fuel out err,
      ask_for_loop fuel message condition condition_error parse_error tys
        (mk_world (mk_istream (Dead :: r) goodbit) out err)
      = Fuel).
Proof.
  assert (A : forall out err,
             ask_for_impl message condition condition_error parse_error
               (map default_value tys)
               (mk_world (mk_istream (Dead :: r) goodbit) out err)
             = Ret (false, map default_value tys)
                 (mk_world (mk_istream (Dead :: r) goodbit) (out ++ message)
                    (err ++ "Cannot read from stream" ++ nl)))
    by reflexivity.
  split; [exact A|].
  induction fuel as [|fuel IH]; intros out err; [reflexivity|].
  cbn [ask_for_loop]. rewrite A. apply IH.
Qed.

(** ** A vector behind other objects *)

Lemma extract_scalar_skip_ws (old : sval) (ws l : list ascii) :
  forallb is_space ws = true ->
  extract_scalar old (mk_sstream (ws ++ l) goodbit)
  = extract_scalar old (mk_sstream l goodbit).
Proof.
  intros H.
  assert (S : sentry (mk_sstream (ws ++ l) goodbit)
              = sentry (mk_sstream l goodbit)).
  { unfold sentry. simpl. now rewrite (skip_ws_spaces _ _ H). }
  destruct old; simpl.
  - unfold extract_int. now rewrite S.
  - unfold extract_string. now rewrite S.
  - unfold extract_char. now rewrite S.
  - unfold extract_integer. now rewrite S.
Qed.

Lemma state_after_more (s : scalar) (c : ascii) (r : list ascii) :
  state_after s (c :: r) = goodbit.
Proof. now destruct s. Qed.

(** The loop of the vector takes the tokens of the element type in front
    and ends at the first extraction that fails, with the buffer and the
    state that extraction leaves. *)
Lemma vector_loop_prefix (e : scalar) :
  forall (toks : list (list ascii)) (pre tail left : list ascii) (v : sval)
         (st : iostate) (vector : list sval) (fuel : nat),
    words pre = toks ->
    forallb (is_token e) toks = true ->
    clean_end pre = true ->
    extract_scalar (default_scalar e) (mk_sstream tail goodbit)
    = (v, mk_sstream left st) ->
    Ios.fail st = true ->
    (List.length toks < fuel)%nat ->
    vector_loop fuel e (mk_sstream (pre ++ tail) goodbit) vector
    = Some (vector ++ map (token_value e) toks, mk_sstream left st).
Proof.
  induction toks as [|tok toks IH];
    intros pre tail left v st vector fuel W T C X F L;
    (destruct fuel as [|fuel]; [simpl in L; lia|]).
  - cbn [vector_loop].
    rewrite (extract_scalar_skip_ws _ _ _ (words_all_space _ W)), X.
    cbn [sstate]. rewrite F. simpl. now rewrite app_nil_r.
  - destruct (words_cons_inv _ _ _ W)
      as (ws & rest & -> & Hws & Hne & Hns & Hrest & Hmore).
    simpl in T. apply andb_true_iff in T as [Ttok T].
    assert (Hr : exists c r, rest = c :: r /\ is_space c = true).
    { destruct Hrest as [->|H]; [|exact H].
      rewrite app_nil_r in C. unfold clean_end in C.
      rewrite (ends_in_space_app ws tok Hne), (ends_in_word tok Hne Hns) in C.
      destruct ws, tok; simpl in C; congruence. }
    destruct Hr as (c & r & -> & Hc).
    assert (C' : clean_end (c :: r) = true).
    { unfold clean_end in *. rewrite app_assoc in C.
      rewrite (ends_in_space_app (ws ++ tok) (c :: r)) in C by discriminate.
      destruct ws, tok; simpl in C |- *; congruence. }
    cbn [vector_loop]. rewrite <- !app_assoc.
    rewrite (extract_scalar_token_value e ws tok ((c :: r) ++ tail) Hws Hne
               Hns Ttok)
      by (right; exists c, (r ++ tail); now split).
    cbn [app]. rewrite state_after_more. cbn [sstate Ios.fail failbit badbit
                                                goodbit orb].
    change (c :: r ++ tail) with ((c :: r) ++ tail).
    rewrite (IH (c :: r) tail left v st _ fuel Hmore T C' X F)
      by (simpl in L; lia).
    simpl. now rewrite <- app_assoc.
Qed.

(** C2, as the header has it.  For a request whose last object is a
    sequence of a numeric (or any other scalar) element type, with any
    objects in front: when what the objects in front leave of the line is
    tokens of the element type followed by text on which the extraction of
    one more element fails, the failed extraction ends the sequence, the
    sequence holds the values of the tokens in front, and [failbit] is
    cleared, so this is no parse failure.  What the failed extraction left
    in the buffer decides the attempt: when something is left (as for
    ["abc"], of which nothing is taken) the attempt is turned down with the
    excess-input message; when nothing is left (a lone sign or a number out
    of range at the end of the line, which are taken whole) the line goes
    on to the condition check and is accepted when that passes. *)
Theorem vector_ends_at_failed_token (front front' : list value) (e : scalar)
  (line pre tail left : list ascii) (v : sval) (st : iostate)
  (rest : list event) (out err : string) (message : string)
  (condition : value -> bool) (condition_error parse_error : string) :
  no_newline line = true ->
  fill_slots front (mk_sstream line goodbit)
  = Some (front', mk_sstream (pre ++ tail) goodbit) ->
  forallb (is_token e) (words pre) = true ->
  clean_end pre = true ->
  extract_scalar (default_scalar e) (mk_sstream tail goodbit)
  = (v, mk_sstream left st) ->
  Ios.fail st = true ->
  (exists st',
     fill_line line (front ++ [Vector e []])
     = Some (front' ++ [Vector e (map (token_value e) (words pre))],
             mk_sstream left st') /\
     Ios.fail st' = false) /\
  ask_for_impl message condition condition_error parse_error
    (front ++ [Vector e []]) (with_line line rest out err)
  = if negb (is_nil left) then
      Ret (false, front' ++ [Vector e (map (token_value e) (words pre))])
        (asked_again message "Error: excess input" rest out err)
    else if errors_after
              (front' ++ [Vector e (map (token_value e) (words pre))])
              condition then
      Ret (false, front' ++ [Vector e (map (token_value e) (words pre))])
        (asked_again message condition_error rest out err)
    else
      Ret (true, front' ++ [Vector e (map (token_value e) (words pre))])
        (accepted message rest out err).
Proof.
  intros Hn Hf T C X F.
  assert (B : badbit st = false).
  { pose proof (extract_scalar_inv (default_scalar e) _ (ss_inv_fresh tail))
      as [B _].
    now rewrite X in B. }
  assert (Ff : failbit st = true).
  { unfold Ios.fail in F. rewrite B in F. now rewrite orb_false_r in F. }
  assert (L : exists st',
             fill_line line (front ++ [Vector e []])
             = Some (front' ++ [Vector e (map (token_value e) (words pre))],
                     mk_sstream left st') /\
             failbit st' = false /\ badbit st' = false).
  { unfold fill_line. rewrite fill_slots_app, Hf.
    cbn [fill_slots extract]. unfold extract_vector. cbn [sbuf].
    rewrite (vector_loop_prefix e (words pre) pre tail left v st [] _
               eq_refl T C X F).
    - cbn [sstate]. rewrite F. cbn [app ss_clear in_avail sbuf sstate].
      destruct (Nat.eqb _ 0); eexists; (split; [reflexivity|]); simpl;
        rewrite Ff, B; now split.
    - pose proof (words_length pre). rewrite length_app. lia. }
  destruct L as (st' & L & F' & B').
  split.
  - exists st'. split; [exact L|]. unfold Ios.fail. now rewrite F', B'.
  - rewrite (ask_for_impl_line message condition condition_error parse_error
               _ _ _ _ rest out err Hn
               (single_string_empty_vector_last line front e []) L).
    cbn [sstate sbuf]. now rewrite F'.
Qed.

Lemma vector_ends_at_failed_token_example :
  ask_for_impl default_message any_value default_condition_error
    default_parse_error
    ([Scalar (VStr EmptyString)] ++ [Vector (SInteger Long) []])
    (with_line (list_ascii_of_string "n 1 2 3 abc") [] EmptyString
       EmptyString)
  = Ret (false,
         [Scalar (VStr "n")]
         ++ [Vector (SInteger Long)
               [VInteger Long 1; VInteger Long 2; VInteger Long 3]])
      (asked_again default_message "Error: excess input" [] EmptyString
         EmptyString).
Proof.
  apply (vector_ends_at_failed_token [Scalar (VStr EmptyString)]
           [Scalar (VStr "n")] (SInteger Long)
           (list_ascii_of_string "n 1 2 3 abc")
           (list_ascii_of_string " 1 2 3 ") (list_ascii_of_string "abc")
           (list_ascii_of_string "abc") (VInteger Long 0) only_fail);
    reflexivity.
Defined.

(** A failed token that is taken whole: a lone sign, and a number that does
    not fit, at the end of the line.  The lines are accepted and the
    sequence is [[1,2,3]]. *)
Lemma vector_failed_token_taken_whole :
  ask_for_single 1 (TVector SInt) "? " any_value default_condition_error
    default_parse_error (console ("1 2 3 -" ++ nl))
  = Ret (Vector SInt [VInt 1; VInt 2; VInt 3])
      (mk_world (mk_istream [] goodbit) "? " EmptyString) /\
  ask_for_single 1 (TVector SInt) "? " any_value default_condition_error
    default_parse_error (console ("1 2 3 99999999999" ++ nl))
  = Ret (Vector SInt [VInt 1; VInt 2; VInt 3])
      (mk_world (mk_istream [] goodbit) "? " EmptyString).
Proof. split; reflexivity. Qed.

(** ** An array in front of a vector *)

(** C7 fails on the header.  For [ask_for<std::array<int, 3>,
    std::vector<int>>] the line ["1 2"] is accepted on the first attempt:
    the third extraction into the array sets [failbit], the vector behind it
    clears [failbit], and the array is returned with its third position
    still holding the value it was declared with.  The array asked for
    alone is the parse failure the header's comment on [get_line_fill]
    promises ("if there is an error parsing into the type, the fail bit is
    set"). *)
Theorem array_before_vector_default_filled :
  ask_for_multiple 1 (TArray SInt 3) (TVector SInt) [] "? " any_value
    default_condition_error default_parse_error (console ("1 2" ++ nl))
  = Ret [Array [VInt 1; VInt 2; VInt 0]; Vector SInt []]
      (mk_world (mk_istream [] goodbit) "? " EmptyString) /\
  ask_for_impl "? " any_value default_condition_error default_parse_error
    [default_value (TArray SInt 3)] (console ("1 2" ++ nl))
  = Ret (false, [Array [VInt 1; VInt 2; VInt 0]])
      (mk_world (mk_istream [] goodbit)
         ("? " ++ default_parse_error ++ nl) EmptyString).
Proof. split; reflexivity. Qed.
